(** * A shallow embedding of [regex.py]

    The Python module builds a graph of [State] objects from a pattern
    ([RegexFSM.__init__]) and walks it over an input ([check_string]).

    Every [State] subclass declares [next_states: list[State] = []] in its
    class body and no [__init__] ever rebinds it, so [x.next_states] is the
    one list object of the class of [x]: six lists in the whole module,
    shared by all instances and by all automata built in the process.  The
    embedding keeps exactly that: a [store] with the allocated objects and
    the six class-level lists. *)

From Stdlib Require Import NArith String Ascii.
From stdpp Require Import gmap list.

Local Open Scope nat_scope.
Local Set Warnings "-clear-no-such-hyp".

(** ** Strings *)

(** A Python [str] is a sequence of code points. *)
Definition char := N.
Definition str := list char.

(** Literals of the source, written as Rocq strings. *)
Definition py (s : string) : str := N_of_ascii <$> list_ascii_of_string s.

Definition dot : char := N_of_ascii "."%char.
Definition star : char := N_of_ascii "*"%char.
Definition plus : char := N_of_ascii "+"%char.

(** [str.isascii] on a one-character string. *)
Definition isascii (c : char) : bool := (c <? 128)%N.

(** ** Objects and the module state *)

Definition addr := nat.

(** The fields an instance carries.  [checking_state] is an object or
    [None]; [curr_sym] is the one-character token. *)
Inductive State : Type :=
| StartState
| TerminationState
| DotState
| AsciiState (curr_sym : char)
| StarState (checking_state : option addr)
| PlusState (checking_state : option addr).

Global Instance State_eq_dec : EqDecision State.
Proof. solve_decision. Defined.

Record store : Type := mkStore {
  heap : list State;
  StartState_next_states : list addr;
  TerminationState_next_states : list addr;
  DotState_next_states : list addr;
  AsciiState_next_states : list addr;
  StarState_next_states : list addr;
  PlusState_next_states : list addr
}.

(** The state right after [import regex]: the class body of [RegexFSM]
    has run [curr_state: State = StartState()], nothing else exists. *)
Definition module_init : store :=
  mkStore [StartState] [] [] [] [] [] [].

(** [x.next_states], resolved through the class of [x]. *)
Definition next_states (σ : store) (o : State) : list addr :=
  match o with
  | StartState => StartState_next_states σ
  | TerminationState => TerminationState_next_states σ
  | DotState => DotState_next_states σ
  | AsciiState _ => AsciiState_next_states σ
  | StarState _ => StarState_next_states σ
  | PlusState _ => PlusState_next_states σ
  end.

(** [x.next_states.append(y)]. *)
Definition append_next_states (σ : store) (o : State) (y : addr) : store :=
  match o with
  | StartState =>
      mkStore (heap σ) (StartState_next_states σ ++ [y])
        (TerminationState_next_states σ) (DotState_next_states σ)
        (AsciiState_next_states σ) (StarState_next_states σ)
        (PlusState_next_states σ)
  | TerminationState =>
      mkStore (heap σ) (StartState_next_states σ)
        (TerminationState_next_states σ ++ [y]) (DotState_next_states σ)
        (AsciiState_next_states σ) (StarState_next_states σ)
        (PlusState_next_states σ)
  | DotState =>
      mkStore (heap σ) (StartState_next_states σ)
        (TerminationState_next_states σ) (DotState_next_states σ ++ [y])
        (AsciiState_next_states σ) (StarState_next_states σ)
        (PlusState_next_states σ)
  | AsciiState _ =>
      mkStore (heap σ) (StartState_next_states σ)
        (TerminationState_next_states σ) (DotState_next_states σ)
        (AsciiState_next_states σ ++ [y]) (StarState_next_states σ)
        (PlusState_next_states σ)
  | StarState _ =>
      mkStore (heap σ) (StartState_next_states σ)
        (TerminationState_next_states σ) (DotState_next_states σ)
        (AsciiState_next_states σ) (StarState_next_states σ ++ [y])
        (PlusState_next_states σ)
  | PlusState _ =>
      mkStore (heap σ) (StartState_next_states σ)
        (TerminationState_next_states σ) (DotState_next_states σ)
        (AsciiState_next_states σ) (StarState_next_states σ)
        (PlusState_next_states σ ++ [y])
  end.

(** ** Outcomes and the state monad of the module *)

Inductive exn : Type := AttributeError | NotImplementedError | RecursionError.

(** A call returns, raises, or (for the [while] loop of [get_closure],
    run on fuel) is cut off. *)
Inductive outcome (A : Type) : Type :=
| Ok (a : A)
| Raise (e : exn)
| Diverge.
Arguments Ok {A} a.
Arguments Raise {A} e.
Arguments Diverge {A}.

Definition obind {A B} (m : outcome A) (k : A → outcome B) : outcome B :=
  match m with
  | Ok a => k a
  | Raise e => Raise e
  | Diverge => Diverge
  end.

Definition M (A : Type) : Type := store → store * outcome A.

Definition ret {A} (a : A) : M A := λ σ, (σ, Ok a).
Definition raise {A} (e : exn) : M A := λ σ, (σ, Raise e).
Definition bind {A B} (m : M A) (k : A → M B) : M B :=
  λ σ, match m σ with
       | (σ', Ok a) => k a σ'
       | (σ', Raise e) => (σ', Raise e)
       | (σ', Diverge) => (σ', Diverge)
       end.

Declare Scope py_scope.
Delimit Scope py_scope with py.
Notation "x <- m ;; k" := (bind m (λ x, k))
  (at level 100, m at next level, right associativity) : py_scope.
Notation "m ;; k" := (bind m (λ _, k))
  (at level 100, right associativity) : py_scope.
Notation "x <~ m ;; k" := (obind m (λ x, k))
  (at level 100, m at next level, right associativity) : py_scope.
Local Open Scope py_scope.

(** Allocation of a new instance. *)
Definition new (o : State) : M addr :=
  λ σ, (mkStore (heap σ ++ [o]) (StartState_next_states σ)
          (TerminationState_next_states σ) (DotState_next_states σ)
          (AsciiState_next_states σ) (StarState_next_states σ)
          (PlusState_next_states σ),
        Ok (length (heap σ))).

(** [x.next_states.append(y)] on a reference [x]. *)
Definition append (x y : addr) : M unit :=
  λ σ, match heap σ !! x with
       | Some o => (append_next_states σ o y, Ok tt)
       | None => (σ, Raise AttributeError)
       end.

(** A read-only computation. *)
Definition reads {A} (f : store → outcome A) : M A := λ σ, (σ, f σ).

(** ** [State.check_self] and [State.check_next] *)

(** What a [check_self] hands back: a [bool], or [None] from the abstract
    body that [StartState.check_self] delegates to. *)
Inductive pyval : Type := PyBool (b : bool) | PyNone.

Definition truthy (v : pyval) : bool :=
  match v with PyBool b => b | PyNone => false end.

(** CPython's default [sys.getrecursionlimit()]. *)
Definition recursion_limit : nat := 1000.

(** [depth] is the number of frames still available; [StarState.check_self]
    is the one override that calls [check_self] again.  A reference always
    points into [heap]; the [None] branches of the lookups, here and below,
    are there to make the functions total. *)
Fixpoint check_self (depth : nat) (σ : store) (x : addr) (c : char)
  : outcome pyval :=
  match depth with
  | O => Raise RecursionError
  | S depth' =>
      match heap σ !! x with
      | None => Raise AttributeError
      | Some StartState => Ok PyNone
      | Some TerminationState => Ok (PyBool false)
      | Some DotState => Ok (PyBool true)
      | Some (AsciiState curr_sym) => Ok (PyBool (curr_sym =? c)%N)
      | Some (StarState _) =>
          (fix loop (l : list addr) : outcome pyval :=
             match l with
             | [] => Ok (PyBool false)
             | state :: l' =>
                 v <~ check_self depth' σ state c ;;
                 if truthy v then Ok (PyBool true) else loop l'
             end) (StarState_next_states σ)
      | Some (PlusState _) => Ok (PyBool false)
      end
  end.

(** [State.check_next]; no other code of the module calls it. *)
Definition check_next (σ : store) (x : addr) (next_char : char)
  : outcome addr :=
  match heap σ !! x with
  | None => Raise AttributeError
  | Some o =>
      (fix loop (l : list addr) : outcome addr :=
         match l with
         | [] => Raise NotImplementedError
         | state :: l' =>
             v <~ check_self recursion_limit σ state next_char ;;
             if truthy v then Ok state else loop l'
         end) (next_states σ o)
  end.

(** ** [RegexFSM.__init__] *)

Record RegexFSM : Type := mkRegexFSM { fsm_head : addr; curr_state : addr }.

(** [__init_next_state]; its callers always pass [None] for
    [tmp_next_state], and [prev_state] is not used. *)
Definition init_next_state (next_token : char) (tmp_next_state : option addr)
  : M addr :=
  if (next_token =? dot)%N then new DotState
  else if (next_token =? star)%N then new (StarState tmp_next_state)
  else if (next_token =? plus)%N then new (PlusState tmp_next_state)
  else if isascii next_token then new (AsciiState next_token)
  else raise AttributeError.

(** The [while index < len(regex_expr)] loop, on the suffix
    [regex_expr[index:]]. *)
Fixpoint build_loop (rest : str) (current_state : addr) : M addr :=
  match rest with
  | [] => ret current_state
  | token :: rest1 =>
      match rest1 with
      | next :: rest2 =>
          if (next =? star)%N then
            char_state <- init_next_state token None ;;
            star_state <- new (StarState (Some char_state)) ;;
            append current_state star_state ;;
            append star_state char_state ;;
            append char_state star_state ;;
            build_loop rest2 star_state
          else if (next =? plus)%N then
            char_state <- init_next_state token None ;;
            plus_state <- new (PlusState (Some char_state)) ;;
            append current_state char_state ;;
            append char_state plus_state ;;
            append plus_state char_state ;;
            build_loop rest2 plus_state
          else
            new_state <- init_next_state token None ;;
            append current_state new_state ;;
            build_loop rest1 new_state
      | [] =>
          new_state <- init_next_state token None ;;
          append current_state new_state ;;
          build_loop rest1 new_state
      end
  end.

Definition RegexFSM_init (regex_expr : str) : M RegexFSM :=
  head <- new StartState ;;
  current_state <- build_loop regex_expr head ;;
  termination_node <- new TerminationState ;;
  append current_state termination_node ;;
  ret (mkRegexFSM head head).

(** ** [RegexFSM.get_closure] *)

(** The innermost two lines: add [next_state] unless it is in [closing]. *)
Definition visit (acc : gset addr * list addr) (next_state : addr)
  : gset addr * list addr :=
  if bool_decide (next_state ∈ acc.1) then acc
  else ({[next_state]} ∪ acc.1, acc.2 ++ [next_state]).

(** One turn of the [while queue] loop, after [queue.pop(0)]. *)
Definition closure_step (σ : store) (current_state : addr)
    (acc : gset addr * list addr) : gset addr * list addr :=
  match heap σ !! current_state with
  | Some (StarState checking_state as o)
  | Some (PlusState checking_state as o) =>
      foldl (λ acc next_state,
               if bool_decide (Some next_state ≠ checking_state)
               then visit acc next_state else acc)
            acc (next_states σ o)
  | Some StartState => foldl visit acc (StartState_next_states σ)
  | _ => acc
  end.

Fixpoint closure_loop (fuel : nat) (σ : store)
    (closing : gset addr) (queue : list addr) : option (gset addr) :=
  match queue with
  | [] => Some closing
  | current_state :: queue' =>
      match fuel with
      | O => None
      | S fuel' =>
          let acc := closure_step σ current_state (closing, queue') in
          closure_loop fuel' σ acc.1 acc.2
      end
  end.

(** The edge lists the loop reads. *)
Definition edge_list (σ : store) : list addr :=
  StartState_next_states σ ++ StarState_next_states σ
  ++ PlusState_next_states σ.

(** Enough turns for any run: the nodes given plus one per edge. *)
Definition closure_fuel (σ : store) (states : gset addr) : nat :=
  size states + length (edge_list σ).

Definition get_closure (σ : store) (states : gset addr)
  : outcome (gset addr) :=
  match closure_loop (closure_fuel σ states) σ states (elements states) with
  | Some closing => Ok closing
  | None => Diverge
  end.

(** ** [RegexFSM.check_string] *)

(** The body of [for active_state in current_active_states].  A Python
    set is walked in no promised order; the embedding walks [elements].
    The set built does not depend on the order; when two active states
    would each raise, the order decides only which exception comes first. *)
Definition step_state (σ : store) (c : char)
    (next_active_states : gset addr) (active_state : addr)
  : outcome (gset addr) :=
  match heap σ !! active_state with
  | Some (StarState checking_state) | Some (PlusState checking_state) =>
      match checking_state with
      | None => Raise AttributeError
      | Some k =>
          v <~ check_self recursion_limit σ k c ;;
          if truthy v then
            match heap σ !! k with
            | Some ko => Ok (list_to_set (next_states σ ko) ∪ next_active_states)
            | None => Raise AttributeError
            end
          else Ok next_active_states
      end
  | Some (AsciiState _ as o) | Some (DotState as o) =>
      v <~ check_self recursion_limit σ active_state c ;;
      if truthy v then Ok (list_to_set (next_states σ o) ∪ next_active_states)
      else Ok next_active_states
  | _ => Ok next_active_states
  end.

Fixpoint for_each {A B} (body : B → A → outcome B) (acc : B) (l : list A)
  : outcome B :=
  match l with
  | [] => Ok acc
  | x :: l' => acc' <~ body acc x ;; for_each body acc' l'
  end.

Definition is_termination (σ : store) (x : addr) : bool :=
  bool_decide (heap σ !! x = Some TerminationState).

(** The [for char in text_to_check] loop and the final scan. *)
Fixpoint run (σ : store) (current_active_states : gset addr)
    (text : str) : outcome bool :=
  match text with
  | [] => Ok (existsb (is_termination σ) (elements current_active_states))
  | c :: text' =>
      next_active_states <~
        for_each (step_state σ c) ∅ (elements current_active_states) ;;
      if bool_decide (next_active_states = ∅) then Ok false
      else
        closed <~ get_closure σ next_active_states ;;
        run σ closed text'
  end.

Definition check_string_in (σ : store) (self : RegexFSM) (text_to_check : str)
  : outcome bool :=
  current_active_states <~ get_closure σ {[curr_state self]} ;;
  run σ current_active_states text_to_check.

Definition check_string (self : RegexFSM) (text_to_check : str) : M bool :=
  reads (λ σ, check_string_in σ self text_to_check).

(** ** Scripts against the module *)

(** [RegexFSM(pattern).check_string(text)] run in the state [σ]. *)
Definition build_and_check_in (σ : store) (pattern text : str)
  : outcome bool :=
  ((fsm <- RegexFSM_init pattern ;; check_string fsm text) σ).2.

(** The same as the first thing done after [import regex]. *)
Definition build_and_check (pattern text : string) : outcome bool :=
  build_and_check_in module_init (py pattern) (py text).

(** [f = RegexFSM(pattern)], then [f.check_string(text)] twice with
    [RegexFSM(other)] in between: the two results of one call on one
    automaton. *)
Definition repeated_check (pattern other text : str) : M (bool * bool) :=
  fsm <- RegexFSM_init pattern ;;
  first <- check_string fsm text ;;
  RegexFSM_init other ;;
  second <- check_string fsm text ;;
  ret (first, second).

(** The outgoing edges of the object at [x]. *)
Definition out_edges (σ : store) (x : addr) : option (list addr) :=
  next_states σ <$> heap σ !! x.

(** ** Notions used to state the properties *)

(** The nodes one turn of the loop looks at for [x]: the edges of a
    [StartState], the edges of a quantifier state other than its
    [checking_state], nothing for the rest. *)
Definition epsilon_targets (σ : store) (x : addr) : list addr :=
  match heap σ !! x with
  | Some (StarState checking_state as o)
  | Some (PlusState checking_state as o) =>
      filter (λ n, Some n ≠ checking_state) (next_states σ o)
  | Some StartState => StartState_next_states σ
  | _ => []
  end.

(** A set is closed when no turn of the loop can add to it. *)
Definition closed (σ : store) (C : gset addr) : Prop :=
  ∀ x y, x ∈ C → y ∈ epsilon_targets σ x → y ∈ C.

(** A computation that returns or raises [AttributeError], nothing else. *)
Definition attribute_error_only {A} (m : M A) : Prop :=
  ∀ σ, match (m σ).2 with
       | Ok _ => True
       | Raise e => e = AttributeError
       | Diverge => False
       end.

(** The tokens a quantifier can follow: the wildcard, or an ASCII
    character that [__init_next_state] turns into an [AsciiState]. *)
Definition quantifiable (x : char) : Prop :=
  x = dot ∨ (isascii x = true ∧ x ≠ star ∧ x ≠ plus).

(** A character matches the token: any character for the wildcard, the
    character itself for a literal. *)
Definition token_matches (x c : char) : bool :=
  (x =? dot)%N || (x =? c)%N.

(** An outcome [check_string] can have: a value, [AttributeError] or
    [RecursionError]; not the [NotImplementedError] of [check_next], and
    not a cut-off loop. *)
Definition surfaced {A} (o : outcome A) : Prop :=
  match o with
  | Ok _ => True
  | Raise e => e ≠ NotImplementedError
  | Diverge => False
  end.

(** The state of the module after [RegexFSM(x + "+")] in a freshly loaded
    module, [x] being the object made for the token. *)
Definition store_after_plus (x : State) : store :=
  mkStore [StartState; StartState; x; PlusState (Some 2); TerminationState]
    [2] [] (match x with DotState => [3] | _ => [] end)
    (match x with AsciiState _ => [3] | _ => [] end) [] [2; 4].

(** The nodes [get_closure] can get to from [S]: the nodes of [S], and the
    targets of the nodes it can get to. *)
Inductive reachable (σ : store) (S : gset addr) : addr → Prop :=
| reachable_seed (x : addr) : x ∈ S → reachable σ S x
| reachable_step (x y : addr) :
    reachable σ S x → y ∈ epsilon_targets σ x → reachable σ S y.

(** [σ'] has all of [σ] and possibly more at the end: the objects, and
    every edge list. *)
Definition extends (σ σ' : store) : Prop :=
  heap σ `prefix_of` heap σ'
  ∧ ∀ o, next_states σ o `prefix_of` next_states σ' o.

(** A computation that only adds to the module state, returning or not. *)
Definition grows {A} (m : M A) : Prop := ∀ σ, extends σ (m σ).1.

(** The object [__init_next_state] makes for a token. *)
Definition token_object (t : char) (tmp : option addr) : State :=
  if (t =? dot)%N then DotState
  else if (t =? star)%N then StarState tmp
  else if (t =? plus)%N then PlusState tmp
  else AsciiState t.

(** The module state once [o] has been allocated. *)
Definition alloc (σ : store) (o : State) : store := (new o σ).1.

(** [m] returns in [σ], and [Q] holds of the state and value it returns. *)
Definition returns {A} (m : M A) (σ : store) (Q : store → A → Prop) : Prop :=
  ∃ σ' a, m σ = (σ', Ok a) ∧ Q σ' a.

(** What the loop of [__init__] leaves behind on a pattern of ASCII
    characters, started at an allocated [current_state]. *)
Definition loop_result (σ : store) (rest : str) (current_state : addr)
    (σ' : store) (last : addr) : Prop :=
  length (heap σ') = length (heap σ) + length rest
  ∧ heap σ `prefix_of` heap σ'
  ∧ last < length (heap σ')
  ∧ (rest = [] → last = current_state)
  ∧ (rest ≠ [] → length (heap σ) ≤ last)
  ∧ (∀ x, length (heap σ) ≤ x → heap σ' !! x ≠ Some StartState)
  ∧ ∃ l, StartState_next_states σ' = StartState_next_states σ ++ l
         ∧ length l
           = if decide (rest ≠ [] ∧ heap σ !! current_state = Some StartState)
             then 1 else 0.

(** What [RegexFSM(regex_expr)] leaves behind when it returns. *)
Definition built (σ : store) (regex_expr : str) (σ' : store)
    (fsm : RegexFSM) : Prop :=
  fsm = mkRegexFSM (length (heap σ)) (length (heap σ))
  ∧ length (heap σ') = length (heap σ) + length regex_expr + 2
  ∧ heap σ' !! length (heap σ) = Some StartState
  ∧ heap σ' !! (length (heap σ) + length regex_expr + 1)
    = Some TerminationState
  ∧ (∀ x, length (heap σ) < x → heap σ' !! x ≠ Some StartState)
  ∧ ∃ a, StartState_next_states σ'
         = StartState_next_states σ ++ [a].

(** [check_self] on [y] returns something false. *)
Definition refuses (σ : store) (c : char) (y : addr) : Prop :=
  ∃ v, check_self recursion_limit σ y c = Ok v ∧ truthy v = false.

(** [check_self] on [y] returns something true. *)
Definition accepts (σ : store) (c : char) (y : addr) : Prop :=
  ∃ v, check_self recursion_limit σ y c = Ok v ∧ truthy v = true.

(** The loop of [check_next] over the edges. *)
Definition first_accepting (σ : store) (c : char)
  : list addr → outcome addr :=
  fix loop (l : list addr) : outcome addr :=
    match l with
    | [] => Raise NotImplementedError
    | state :: l' =>
        v <~ check_self recursion_limit σ state c ;;
        if truthy v then Ok state else loop l'
    end.

(** Some object of the module can take the character [c]: a [DotState],
    or an [AsciiState] of that symbol. *)
Definition consumes (σ : store) (c : char) : Prop :=
  ∃ x, heap σ !! x = Some DotState ∨ heap σ !! x = Some (AsciiState c).

(** The objects [__init__] can make from a pattern: a wildcard only for a
    dot in it, a literal only for a character in it. *)
Definition from_pattern (regex_expr : str) (o : State) : Prop :=
  match o with
  | DotState => dot ∈ regex_expr
  | AsciiState curr_sym => curr_sym ∈ regex_expr
  | _ => True
  end.

(** A computation that allocates only objects with [P]. *)
Definition allocates {A} (P : State → Prop) (m : M A) : Prop :=
  ∀ σ x o, heap (m σ).1 !! x = Some o → heap σ !! x = Some o ∨ P o.

(** A quantifier state made without a state to check. *)
Definition unchecked (σ : store) (x : addr) : Prop :=
  heap σ !! x = Some (StarState None) ∨ heap σ !! x = Some (PlusState None).

(** The state of the module after [RegexFSM(x + "*")] in a freshly loaded
    module, [x] being the object made for the token. *)
Definition store_after_star (x : State) : store :=
  mkStore [StartState; StartState; x; StarState (Some 2); TerminationState]
    [3] [] (match x with DotState => [3] | _ => [] end)
    (match x with AsciiState _ => [3] | _ => [] end) [2; 4] [].

(** The same after [RegexFSM(x)], a pattern of one token. *)
Definition store_after_token (x : State) : store :=
  mkStore [StartState; StartState; x; TerminationState]
    [2] [] (match x with DotState => [3] | _ => [] end)
    (match x with AsciiState _ => [3] | _ => [] end) [] [].

(** What one active state adds to the next set on [c]. *)
Definition moves (σ : store) (c : char) (a : addr) : outcome (gset addr) :=
  step_state σ c ∅ a.

(** [RegexFSM(p)] for each pattern of a list in turn; a call that raises
    is caught and the run goes on. *)
Fixpoint build_all (patterns : list str) (σ : store) : store :=
  match patterns with
  | [] => σ
  | p :: patterns' => build_all patterns' (RegexFSM_init p σ).1
  end.

(** ** Facts about [get_closure] *)

Lemma size_list_to_set_le (l : list addr) :
  size (list_to_set l : gset addr) ≤ length l.
Proof.
  induction l as [|a l IH]; [done|].
  cbn [list_to_set length foldr]. rewrite size_union_alt, size_singleton.
  assert (size (list_to_set l ∖ {[a]} : gset addr)
          ≤ size (list_to_set l : gset addr)); [|lia].
  apply subseteq_size. set_solver.
Qed.

Section closure.
Context (σ : store).

Lemma foldl_visit (p : addr → bool) (l : list addr)
    (acc : gset addr * list addr) :
  ∃ new,
    foldl (λ acc n, if p n then visit acc n else acc) acc l
      = (acc.1 ∪ list_to_set new, acc.2 ++ new)
    ∧ NoDup new
    ∧ (∀ x, x ∈ new → (x ∉ acc.1) ∧ x ∈ l ∧ (p x = true))
    ∧ (∀ x, x ∈ l → p x = true → x ∈ acc.1 ∨ x ∈ new).
Proof.
  revert acc. induction l as [|n l IH]; intros [closing queue]; simpl.
  - exists []. simpl. rewrite app_nil_r, union_empty_r_L.
    split_and!; [done | constructor | set_solver | set_solver].
  - destruct (p n) eqn:Hp.
    + unfold visit at 2. simpl. case_bool_decide as Hin.
      * destruct (IH (closing, queue)) as (new & -> & Hnd & Hnew & Hall).
        exists new. simpl in *. split_and!; [done | done | |].
        -- intros x Hx. destruct (Hnew x Hx) as (? & ? & ?). set_solver.
        -- intros x Hx Hpx. apply elem_of_cons in Hx as [->|Hx]; auto.
      * destruct (IH ({[n]} ∪ closing, queue ++ [n]))
          as (new & -> & Hnd & Hnew & Hall).
        exists (n :: new). simpl in *. split_and!.
        -- f_equal; [set_solver | by rewrite <- app_assoc].
        -- constructor; [|done]. intros Hx.
           destruct (Hnew n Hx) as (? & ? & ?). set_solver.
        -- intros x Hx. apply elem_of_cons in Hx as [->|Hx].
           ++ set_solver.
           ++ destruct (Hnew x Hx) as (? & ? & ?). set_solver.
        -- intros x Hx Hpx. apply elem_of_cons in Hx as [->|Hx].
           ++ right. set_solver.
           ++ destruct (Hall x Hx Hpx); set_solver.
    + destruct (IH (closing, queue)) as (new & -> & Hnd & Hnew & Hall).
      exists new. simpl in *. split_and!; [done | done | |].
      * intros x Hx. destruct (Hnew x Hx) as (? & ? & ?). set_solver.
      * intros x Hx Hpx. apply elem_of_cons in Hx as [->|Hx]; [|auto].
        congruence.
Qed.

(** What one turn does: it appends to the queue exactly the targets that
    are not in [closing] yet, each once, and adds them to [closing]. *)
Lemma closure_step_spec (current_state : addr)
    (acc : gset addr * list addr) :
  ∃ new,
    closure_step σ current_state acc
      = (acc.1 ∪ list_to_set new, acc.2 ++ new)
    ∧ NoDup new
    ∧ (∀ x, x ∈ new → (x ∉ acc.1) ∧ x ∈ epsilon_targets σ current_state)
    ∧ (∀ x, x ∈ epsilon_targets σ current_state → x ∈ acc.1 ∨ x ∈ new).
Proof.
  unfold closure_step, epsilon_targets.
  destruct (heap σ !! current_state) as [[| | | c | chk | chk]|];
    try (exists []; simpl; rewrite app_nil_r, union_empty_r_L;
         destruct acc; split_and!;
         [done | constructor | set_solver | set_solver]).
  - destruct (foldl_visit (λ _, true) (StartState_next_states σ) acc)
      as (new & Heq & Hnd & Hnew & Hall).
    exists new. split_and!; [exact Heq | done | |].
    + intros x Hx. destruct (Hnew x Hx) as (? & ? & ?). done.
    + intros x Hx. by apply Hall.
  - destruct (foldl_visit (λ n, bool_decide (Some n ≠ chk))
                (next_states σ (StarState chk)) acc)
      as (new & Heq & Hnd & Hnew & Hall).
    exists new. split_and!; [exact Heq | done | |].
    + intros x Hx. destruct (Hnew x Hx) as (? & ? & Hp).
      split; [done|]. apply list_elem_of_filter.
      split; [by apply bool_decide_eq_true in Hp | done].
    + intros x Hx. apply list_elem_of_filter in Hx as [Hp Hx].
      apply Hall; [done | by apply bool_decide_eq_true].
  - destruct (foldl_visit (λ n, bool_decide (Some n ≠ chk))
                (next_states σ (PlusState chk)) acc)
      as (new & Heq & Hnd & Hnew & Hall).
    exists new. split_and!; [exact Heq | done | |].
    + intros x Hx. destruct (Hnew x Hx) as (? & ? & Hp).
      split; [done|]. apply list_elem_of_filter.
      split; [by apply bool_decide_eq_true in Hp | done].
    + intros x Hx. apply list_elem_of_filter in Hx as [Hp Hx].
      apply Hall; [done | by apply bool_decide_eq_true].
Qed.

Lemma epsilon_targets_edge (x y : addr) :
  y ∈ epsilon_targets σ x → y ∈ edge_list σ.
Proof.
  unfold epsilon_targets, edge_list.
  destruct (heap σ !! x) as [[| | | c | chk | chk]|]; simpl;
    rewrite ?list_elem_of_filter, ?elem_of_app; set_solver.
Qed.

(** The loop, from any point where the queue holds distinct nodes of
    [closing]: it stops, and it takes exactly as many turns as there are
    nodes waiting plus nodes still to be found. *)
Lemma closure_loop_exact (n : nat) :
  ∀ (closing : gset addr) (queue : list addr),
    NoDup queue →
    (∀ x, x ∈ queue → x ∈ closing) →
    length queue + size (list_to_set (edge_list σ) ∖ closing) ≤ n →
    ∃ C : gset addr,
      closing ⊆ C
      ∧ length queue + (size C - size closing) ≤ n
      ∧ ∀ fuel,
          closure_loop fuel σ closing queue
          = if decide (length queue + (size C - size closing) ≤ fuel)
            then Some C else None.
Proof.
  induction n as [|n IH]; intros closing queue Hnd Hsub Hn.
  - destruct queue as [|x queue]; [|simpl in Hn; lia].
    exists closing. split_and!; [done | simpl; lia |].
    intros fuel. simpl. rewrite Nat.sub_diag. by destruct fuel.
  - destruct queue as [|x queue].
    { exists closing. split_and!; [done | simpl; lia |].
      intros fuel. simpl. rewrite Nat.sub_diag. by destruct fuel. }
    destruct (closure_step_spec x (closing, queue))
      as (new & Hstep & Hndnew & Hnew & _). simpl in Hstep, Hnew.
    apply NoDup_cons in Hnd as [Hx Hnd].
    assert (Hdisj : closing ## list_to_set new).
    { intros y Hy1 Hy2. apply elem_of_list_to_set in Hy2.
      by destruct (Hnew y Hy2). }
    assert (Hsz : size (closing ∪ list_to_set new)
                  = size closing + length new).
    { rewrite size_union by done. by rewrite size_list_to_set. }
    assert (Hrest : size (list_to_set (edge_list σ) ∖ closing)
                    = length new
                      + size (list_to_set (edge_list σ)
                              ∖ (closing ∪ list_to_set new))).
    { rewrite <- (size_list_to_set (C:=gset addr) new) by done.
      rewrite <- size_union.
      - f_equal. apply set_eq. intros y.
        rewrite elem_of_union, !elem_of_difference, elem_of_union,
          !elem_of_list_to_set.
        split.
        + intros [Hy1 Hy2]. destruct (decide (y ∈ new)); [by left|].
          right. split; [done|]. by intros [?|?].
        + intros [Hy|[Hy1 Hy2]].
          * destruct (Hnew y Hy) as [? Ht]. split; [|done].
            by apply epsilon_targets_edge in Ht.
          * split; [done|]. intros ?. apply Hy2. by left.
      - intros y Hy1 Hy2. apply elem_of_difference in Hy2 as [_ Hy2].
        apply Hy2. by apply elem_of_union_r. }
    destruct (IH (closing ∪ list_to_set new) (queue ++ new))
      as (C & HC & Hbound & Hloop).
    { apply NoDup_app. split_and!; [done | | done].
      intros y Hy1 Hy2. destruct (Hnew y Hy2) as [Hy3 _].
      apply Hy3, Hsub. by right. }
    { intros y Hy. apply elem_of_app in Hy as [Hy|Hy].
      - apply elem_of_union_l, Hsub. by right.
      - by apply elem_of_union_r, elem_of_list_to_set. }
    { rewrite length_app. simpl in Hn. lia. }
    assert (HszC : size closing + length new ≤ size C).
    { rewrite <- Hsz. by apply subseteq_size. }
    rewrite length_app, Hsz in Hbound.
    exists C. split_and!.
    + set_solver.
    + simpl. lia.
    + intros [|fuel]; [done|].
      cbn [closure_loop]. rewrite Hstep. cbn [fst snd].
      rewrite Hloop, length_app, Hsz. cbn [length].
      repeat case_decide; try done; lia.
Qed.

(** Whatever the loop returns is closed, as soon as the nodes of
    [closing] that are not waiting in the queue have all their targets
    in [closing]. *)
Lemma closure_loop_closed (fuel : nat) :
  ∀ (closing : gset addr) (queue : list addr) (C : gset addr),
    closure_loop fuel σ closing queue = Some C →
    (∀ x y, x ∈ closing → x ∉ queue →
            y ∈ epsilon_targets σ x → y ∈ closing) →
    closed σ C.
Proof.
  induction fuel as [|fuel IH]; intros closing queue C Hrun Hinv.
  - destruct queue; [|done]. simpl in Hrun. injection Hrun as <-.
    intros x y Hx Hy. eapply Hinv; [done | | done]. by intros ?%elem_of_nil.
  - destruct queue as [|z queue]; simpl in Hrun.
    { injection Hrun as <-.
      intros x y Hx Hy. eapply Hinv; [done | | done].
      by intros ?%elem_of_nil. }
    destruct (closure_step_spec z (closing, queue))
      as (new & Hstep & _ & Hnew & Hall). simpl in Hstep, Hnew, Hall.
    rewrite Hstep in Hrun. simpl in Hrun.
    apply (IH _ _ _ Hrun). intros x y Hx Hxq Hy.
    rewrite elem_of_app in Hxq.
    apply elem_of_union in Hx as [Hx|Hx];
      [|exfalso; apply Hxq; right; by apply elem_of_list_to_set in Hx].
    destruct (decide (x = z)) as [->|Hne].
    + destruct (Hall y Hy); [by apply elem_of_union_l|].
      by apply elem_of_union_r, elem_of_list_to_set.
    + apply elem_of_union_l. apply (Hinv x y); [done | | done].
      intros [->|?]%elem_of_cons; [done|]. apply Hxq. by left.
Qed.

(** On a closed set the loop only empties the queue. *)
Lemma closure_loop_on_closed (C : gset addr) :
  closed σ C →
  ∀ (queue : list addr) (fuel : nat),
    (∀ x, x ∈ queue → x ∈ C) →
    length queue ≤ fuel →
    closure_loop fuel σ C queue = Some C.
Proof.
  intros HC queue. induction queue as [|z queue IH]; intros fuel Hsub Hlen.
  - by destruct fuel.
  - destruct fuel as [|fuel]; simpl in *; [lia|].
    destruct (closure_step_spec z (C, queue))
      as (new & Hstep & _ & Hnew & _). simpl in Hstep, Hnew.
    destruct new as [|y new].
    + rewrite Hstep. simpl. rewrite union_empty_r_L, app_nil_r.
      apply IH; [|lia]. intros x Hx. apply Hsub. by right.
    + exfalso. destruct (Hnew y) as [Hy1 Hy2]; [by left|].
      apply Hy1. apply (HC z y); [|done]. apply Hsub. by left.
Qed.

(** [get_closure] returns on every set; the set it returns contains the
    argument, is closed, and costs one turn per node in it. *)
Lemma get_closure_spec (states : gset addr) :
  ∃ C : gset addr,
    get_closure σ states = Ok C
    ∧ states ⊆ C
    ∧ closed σ C
    ∧ ∀ fuel, closure_loop fuel σ states (elements states)
              = if decide (size C ≤ fuel) then Some C else None.
Proof.
  destruct (closure_loop_exact (closure_fuel σ states) states
              (elements states)) as (C & HC & Hbound & Hloop).
  { apply NoDup_elements. }
  { intros x. by rewrite elem_of_elements. }
  { unfold closure_fuel.
    change (length (elements states)) with (size states).
    assert (size (list_to_set (edge_list σ) ∖ states)
            ≤ length (edge_list σ)); [|lia].
    etrans; [apply subseteq_size, subseteq_difference_l; reflexivity|].
    apply size_list_to_set_le. }
  change (length (elements states)) with (size states) in *.
  assert (Hsz : size states ≤ size C) by by apply subseteq_size.
  assert (Heq : ∀ fuel, closure_loop fuel σ states (elements states)
                = if decide (size C ≤ fuel) then Some C else None).
  { intros fuel. rewrite Hloop. repeat case_decide; try done; lia. }
  exists C. split_and!; [| done | | done].
  - unfold get_closure. rewrite Heq. case_decide; [done|lia].
  - apply (closure_loop_closed (size C) states (elements states)).
    + rewrite Heq. by case_decide.
    + intros x y Hx Hnq. exfalso. apply Hnq. by apply elem_of_elements.
Qed.
End closure.

(** ** Construction errors *)

Lemma new_attribute_error_only (o : State) : attribute_error_only (new o).
Proof. by intros σ. Qed.

Lemma append_attribute_error_only (x y : addr) :
  attribute_error_only (append x y).
Proof. intros σ. unfold append. by destruct (heap σ !! x). Qed.

Lemma init_next_state_attribute_error_only (t : char) (tmp : option addr) :
  attribute_error_only (init_next_state t tmp).
Proof.
  intros σ. unfold init_next_state.
  by repeat match goal with |- context [if ?b then _ else _] => destruct b end.
Qed.

Lemma bind_raises {A B} (m : M A) (k : A → M B) (σ : store) :
  attribute_error_only m →
  (∀ a σ', (k a σ').2 = Raise AttributeError) →
  (bind m k σ).2 = Raise AttributeError.
Proof.
  intros Hm Hk. specialize (Hm σ). unfold bind.
  destruct (m σ) as [σ' [a|e|]]; simpl in *; [apply Hk | by subst | done].
Qed.

Lemma isascii_false_ne (c : char) :
  isascii c = false → (c =? dot)%N = false ∧ (c =? star)%N = false
                      ∧ (c =? plus)%N = false.
Proof.
  unfold isascii, dot, star, plus. intros Hc%N.ltb_ge.
  rewrite !N.eqb_neq. simpl. lia.
Qed.

Lemma init_next_state_non_ascii (t : char) (tmp : option addr) (σ : store) :
  isascii t = false → init_next_state t tmp σ = (σ, Raise AttributeError).
Proof.
  intros Ht. unfold init_next_state.
  destruct (isascii_false_ne t Ht) as (-> & -> & ->). by rewrite Ht.
Qed.

(** One turn of the [while] loop of [__init__]. *)
Lemma build_loop_unfold (token : char) (rest1 : str) (current_state : addr) :
  build_loop (token :: rest1) current_state
  = match rest1 with
    | next :: rest2 =>
        if (next =? star)%N then
          char_state <- init_next_state token None ;;
          star_state <- new (StarState (Some char_state)) ;;
          append current_state star_state ;;
          append star_state char_state ;;
          append char_state star_state ;;
          build_loop rest2 star_state
        else if (next =? plus)%N then
          char_state <- init_next_state token None ;;
          plus_state <- new (PlusState (Some char_state)) ;;
          append current_state char_state ;;
          append char_state plus_state ;;
          append plus_state char_state ;;
          build_loop rest2 plus_state
        else
          new_state <- init_next_state token None ;;
          append current_state new_state ;;
          build_loop rest1 new_state
    | [] =>
        new_state <- init_next_state token None ;;
        append current_state new_state ;;
        build_loop rest1 new_state
    end.
Proof. by destruct rest1. Qed.

Lemma build_loop_non_ascii (n : nat) :
  ∀ (rest : str) (current_state : addr) (σ : store) (c : char),
    length rest ≤ n → c ∈ rest → isascii c = false →
    (build_loop rest current_state σ).2 = Raise AttributeError.
Proof.
  induction n as [|n IH]; intros rest cur σ c Hlen Hin Hc.
  { destruct rest; [by apply elem_of_nil in Hin | simpl in Hlen; lia]. }
  destruct rest as [|token rest1]; [by apply elem_of_nil in Hin|].
  destruct (isascii token) eqn:Htok.
  - assert (Hin1 : c ∈ rest1).
    { apply elem_of_cons in Hin as [->|?]; [congruence | done]. }
    destruct rest1 as [|next rest2]; [by apply elem_of_nil in Hin1|].
    rewrite build_loop_unfold. simpl in Hlen.
    destruct (isascii_false_ne c Hc) as (_ & Hstar & Hplus).
    destruct (next =? star)%N eqn:Hn1; [|destruct (next =? plus)%N eqn:Hn2].
    + assert (c ∈ rest2).
      { apply elem_of_cons in Hin1 as [->|?]; [congruence | done]. }
      repeat (apply bind_raises;
              [first [apply init_next_state_attribute_error_only
                     |apply new_attribute_error_only
                     |apply append_attribute_error_only]|intros ? ?]).
      apply (IH _ _ _ c); [lia | done | done].
    + assert (c ∈ rest2).
      { apply elem_of_cons in Hin1 as [->|?]; [congruence | done]. }
      repeat (apply bind_raises;
              [first [apply init_next_state_attribute_error_only
                     |apply new_attribute_error_only
                     |apply append_attribute_error_only]|intros ? ?]).
      apply (IH _ _ _ c); [lia | done | done].
    + repeat (apply bind_raises;
              [first [apply init_next_state_attribute_error_only
                     |apply new_attribute_error_only
                     |apply append_attribute_error_only]|intros ? ?]).
      apply (IH _ _ _ c); [simpl; lia | done | done].
  - assert (Hhead : ∀ k : addr → M addr,
              (bind (init_next_state token None) k σ).2
              = Raise AttributeError).
    { intros k. unfold bind. by rewrite init_next_state_non_ascii. }
    rewrite build_loop_unfold. destruct rest1 as [|next rest2]; [apply Hhead|].
    destruct (next =? star)%N; [|destruct (next =? plus)%N]; apply Hhead.
Qed.

(** ** One character of [check_string] *)

Lemma run_unfold (σ : store) (A : gset addr) (c : char) (text : str) :
  run σ A (c :: text)
  = obind (for_each (step_state σ c) ∅ (elements A)) (λ next,
      if bool_decide (next = ∅) then Ok false
      else obind (get_closure σ next) (λ closed, run σ closed text)).
Proof. reflexivity. Qed.

Lemma recursion_limit_pos : ∃ depth, recursion_limit = S depth.
Proof. by exists 999. Qed.

Lemma check_self_literal (depth : nat) (σ : store) (a : addr) (x c : char) :
  heap σ !! a = Some (AsciiState x) →
  check_self (S depth) σ a c = Ok (PyBool (x =? c)%N).
Proof. intros Ha. cbn [check_self]. by rewrite Ha. Qed.

Lemma check_self_wildcard (depth : nat) (σ : store) (a : addr) (c : char) :
  heap σ !! a = Some DotState →
  check_self (S depth) σ a c = Ok (PyBool true).
Proof. intros Ha. cbn [check_self]. by rewrite Ha. Qed.

Lemma step_state_literal (σ : store) (c : char) (acc : gset addr)
    (a : addr) (x : char) :
  heap σ !! a = Some (AsciiState x) →
  step_state σ c acc a
  = Ok (if (x =? c)%N then list_to_set (AsciiState_next_states σ) ∪ acc
        else acc).
Proof.
  intros Ha. unfold step_state. rewrite Ha.
  destruct recursion_limit_pos as [depth ->].
  rewrite (check_self_literal _ _ _ x) by done.
  cbn [obind truthy next_states]. by destruct (x =? c)%N.
Qed.

Lemma step_state_wildcard (σ : store) (c : char) (acc : gset addr) (a : addr) :
  heap σ !! a = Some DotState →
  step_state σ c acc a = Ok (list_to_set (DotState_next_states σ) ∪ acc).
Proof.
  intros Ha. unfold step_state. rewrite Ha.
  destruct recursion_limit_pos as [depth ->].
  by rewrite check_self_wildcard.
Qed.

Lemma step_state_plus_literal (σ : store) (c : char) (acc : gset addr)
    (a k : addr) (x : char) :
  heap σ !! a = Some (PlusState (Some k)) →
  heap σ !! k = Some (AsciiState x) →
  step_state σ c acc a
  = Ok (if (x =? c)%N then list_to_set (AsciiState_next_states σ) ∪ acc
        else acc).
Proof.
  intros Ha Hk. unfold step_state. rewrite Ha.
  destruct recursion_limit_pos as [depth ->].
  rewrite (check_self_literal _ _ _ x) by done.
  cbn [obind truthy]. rewrite Hk. by destruct (x =? c)%N.
Qed.

Lemma step_state_plus_wildcard (σ : store) (c : char) (acc : gset addr)
    (a k : addr) :
  heap σ !! a = Some (PlusState (Some k)) →
  heap σ !! k = Some DotState →
  step_state σ c acc a = Ok (list_to_set (DotState_next_states σ) ∪ acc).
Proof.
  intros Ha Hk. unfold step_state. rewrite Ha.
  destruct recursion_limit_pos as [depth ->].
  rewrite check_self_wildcard by done. cbn [obind truthy]. by rewrite Hk.
Qed.

Lemma step_state_start (σ : store) (c : char) (acc : gset addr) (a : addr) :
  heap σ !! a = Some StartState → step_state σ c acc a = Ok acc.
Proof. intros Ha. unfold step_state. by rewrite Ha. Qed.

Lemma step_state_termination (σ : store) (c : char) (acc : gset addr)
    (a : addr) :
  heap σ !! a = Some TerminationState → step_state σ c acc a = Ok acc.
Proof. intros Ha. unfold step_state. by rewrite Ha. Qed.

(** Proof steps for a concrete state of the module: list the active set,
    then run the loop body on each of its nodes. *)
Ltac list_elements :=
  match goal with
  | |- context [elements ?A] =>
      let l := fresh "l" in set (l := elements A); vm_compute in l; subst l
  end.

Ltac step_states :=
  cbn [for_each];
  repeat (first
    [ erewrite step_state_start by reflexivity
    | erewrite step_state_termination by reflexivity
    | erewrite step_state_literal by reflexivity
    | erewrite step_state_wildcard by reflexivity
    | erewrite step_state_plus_literal by reflexivity
    | erewrite step_state_plus_wildcard by reflexivity ];
    cbn [obind for_each]).

(** ** What [check_string] can end in *)

Lemma obind_surfaced {A B} (m : outcome A) (k : A → outcome B) :
  surfaced m → (∀ a, surfaced (k a)) → surfaced (obind m k).
Proof. destruct m; simpl; auto. Qed.

Lemma check_self_surfaced (depth : nat) (σ : store) (x : addr) (c : char) :
  surfaced (check_self depth σ x c).
Proof.
  revert x. induction depth as [|depth IH]; intros x; [done|].
  cbn [check_self].
  destruct (heap σ !! x) as [[| | | sym | chk | chk]|]; try done.
  induction (StarState_next_states σ) as [|state l IHl]; [done|].
  apply obind_surfaced; [apply IH|].
  intros v. by destruct (truthy v).
Qed.

Lemma step_state_surfaced (σ : store) (c : char) (acc : gset addr)
    (a : addr) :
  surfaced (step_state σ c acc a).
Proof.
  unfold step_state.
  destruct (heap σ !! a) as [[| | | sym | [k|] | [k|]]|]; try done;
    (apply obind_surfaced; [apply check_self_surfaced|]);
    intros v; destruct (truthy v); try done;
    by destruct (heap σ !! k).
Qed.

Lemma for_each_surfaced {A B} (body : B → A → outcome B) (l : list A) :
  (∀ acc x, surfaced (body acc x)) → ∀ acc, surfaced (for_each body acc l).
Proof.
  intros Hbody. induction l as [|x l IH]; intros acc; [done|].
  cbn [for_each]. by apply obind_surfaced.
Qed.

Lemma get_closure_surfaced (σ : store) (states : gset addr) :
  surfaced (get_closure σ states).
Proof. destruct (get_closure_spec σ states) as (C & -> & _). done. Qed.

Lemma run_surfaced (σ : store) (text : str) :
  ∀ active : gset addr, surfaced (run σ active text).
Proof.
  induction text as [|c text IH]; intros active; [done|].
  cbn [run]. apply obind_surfaced.
  - apply for_each_surfaced, step_state_surfaced.
  - intros next. case_bool_decide; [done|].
    apply obind_surfaced; [apply get_closure_surfaced | apply IH].
Qed.

(** [check_string] never lets the [raise] of [check_next] out, and its
    closure loops always finish. *)
Lemma check_string_surfaced (σ : store) (self : RegexFSM) (text : str) :
  surfaced (check_string self text σ).2.
Proof.
  apply obind_surfaced; [apply get_closure_surfaced|].
  intros active. apply run_surfaced.
Qed.

(** ** The first automaton of a process *)

(** X14: built first after the module is loaded, the automaton of the
    empty pattern accepts the empty input and no other. *)
Lemma empty_pattern_fresh (text : str) :
  build_and_check_in module_init [] text = Ok (bool_decide (text = [])).
Proof. destruct text as [|c text]; vm_compute; reflexivity. Qed.

Lemma RegexFSM_init_plus_fresh (x : char) :
  quantifiable x →
  RegexFSM_init [x; plus] module_init
  = (store_after_plus (if (x =? dot)%N then DotState else AsciiState x),
     Ok (mkRegexFSM 1 1)).
Proof.
  intros [->|(Ha & Hs%N.eqb_neq & Hp%N.eqb_neq)]; [by vm_compute|].
  unfold RegexFSM_init, bind at 1. cbn [new module_init heap].
  rewrite build_loop_unfold.
  change (plus =? star)%N with false. change (plus =? plus)%N with true.
  cbv iota. unfold init_next_state. rewrite Hs, Hp, Ha.
  by destruct (x =? dot)%N.
Qed.

(** Once the quantified token has been read, the active set is the
    [PlusState] and the termination node, and stays so while the input
    matches. *)
Lemma run_plus_wildcard (text : str) :
  run (store_after_plus DotState) {[3; 4]} text = Ok true.
Proof.
  induction text as [|c text IH]; [by vm_compute|].
  rewrite run_unfold. list_elements. step_states.
  replace (bool_decide (_ = ∅)) with false by by vm_compute.
  replace (get_closure _ _) with (Ok ({[3; 4]} : gset addr))
    by by vm_compute.
  exact IH.
Qed.

Lemma run_plus_literal (x : char) (text : str) :
  run (store_after_plus (AsciiState x)) {[3; 4]} text
  = Ok (forallb (N.eqb x) text).
Proof.
  induction text as [|c text IH]; [by vm_compute|].
  rewrite run_unfold. list_elements. step_states.
  cbn [forallb]. destruct (x =? c)%N.
  - replace (bool_decide (_ = ∅)) with false by by vm_compute.
    replace (get_closure _ _) with (Ok ({[3; 4]} : gset addr))
      by by vm_compute.
    exact IH.
  - by vm_compute.
Qed.

(** X17: built first after the module is loaded, the automaton of [x+]
    accepts exactly the non-empty inputs whose characters all match [x]. *)
Lemma plus_pattern_fresh (x : char) (text : str) :
  quantifiable x →
  build_and_check_in module_init [x; plus] text
  = Ok (bool_decide (text ≠ []) && forallb (token_matches x) text).
Proof.
  intros Hx. unfold build_and_check_in, bind.
  rewrite (RegexFSM_init_plus_fresh x Hx).
  unfold check_string, reads, check_string_in. cbn [snd curr_state].
  destruct (x =? dot)%N eqn:Hd.
  - replace (get_closure _ _) with (Ok ({[1; 2]} : gset addr))
      by by vm_compute.
    cbn [obind]. destruct text as [|c text]; [by vm_compute|].
    rewrite run_unfold. list_elements. step_states.
    replace (bool_decide (_ = ∅)) with false by by vm_compute.
    replace (get_closure _ _) with (Ok ({[3; 4]} : gset addr))
      by by vm_compute.
    cbn [obind]. rewrite run_plus_wildcard.
    rewrite (bool_decide_eq_true_2 (c :: text ≠ [])) by done.
    cbn [andb forallb].
    unfold token_matches at 1. rewrite Hd. cbn [orb andb].
    f_equal. symmetry. apply forallb_forall. intros y _.
    unfold token_matches. by rewrite Hd.
  - replace (get_closure _ _) with (Ok ({[1; 2]} : gset addr))
      by by vm_compute.
    cbn [obind]. destruct text as [|c text]; [by vm_compute|].
    rewrite run_unfold. list_elements. step_states.
    rewrite (bool_decide_eq_true_2 (c :: text ≠ [])) by done.
    cbn [andb forallb].
    unfold token_matches at 1. rewrite Hd. cbn [orb].
    destruct (x =? c)%N; [|by vm_compute].
    replace (bool_decide (_ = ∅)) with false by by vm_compute.
    replace (get_closure _ _) with (Ok ({[3; 4]} : gset addr))
      by by vm_compute.
    cbn [obind andb]. rewrite run_plus_literal. f_equal.
    induction text as [|y text IH]; [done|].
    cbn [forallb]. unfold token_matches at 1. rewrite Hd, IH. done.
Qed.

(** ** The closure computation *)

(** C9: on every state of the module and every set of nodes, the [while]
    loop of [get_closure] stops and [get_closure] returns a set.  A turn
    appends to the worklist only nodes that are not in [closing] yet, each
    once, and puts them in [closing]; so no node enters the worklist twice,
    and the loop makes exactly one turn per node of the set it returns
    (with fewer turns allowed it is cut off, with that many it is done),
    whatever cycles the edge lists contain. *)
Theorem get_closure_terminates (σ : store) (states : gset addr) :
  (∀ (current_state : addr) (closing : gset addr) (queue : list addr),
     ∃ new : list addr,
       closure_step σ current_state (closing, queue)
       = (closing ∪ list_to_set new, queue ++ new)
       ∧ NoDup new ∧ ∀ x, x ∈ new → x ∉ closing)
  ∧ ∃ closing : gset addr,
      get_closure σ states = Ok closing
      ∧ ∀ fuel, closure_loop fuel σ states (elements states)
                = if decide (size closing ≤ fuel) then Some closing else None.
Proof.
  split.
  - intros current_state closing queue.
    destruct (closure_step_spec σ current_state (closing, queue))
      as (new & Hstep & Hnd & Hnew & _).
    exists new. split_and!; [done | done |].
    intros x Hx. by destruct (Hnew x Hx).
  - destruct (get_closure_spec σ states) as (C & Hget & _ & _ & Hloop).
    by exists C.
Qed.

(** C10: [get_closure] is extensive and idempotent: on every state of the
    module and every set [S] it returns a set that contains [S], and
    applied to that set it returns it unchanged. *)
Theorem get_closure_closure_operator (σ : store) (S : gset addr) :
  ∃ C : gset addr,
    get_closure σ S = Ok C ∧ S ⊆ C ∧ get_closure σ C = Ok C.
Proof.
  destruct (get_closure_spec σ S) as (C & Hget & Hsub & Hclosed & _).
  exists C. split_and!; [done | done |].
  unfold get_closure.
  rewrite (closure_loop_on_closed σ C Hclosed); [done | |].
  - intros x. by rewrite elem_of_elements.
  - unfold closure_fuel. change (length (elements C)) with (size C). lia.
Qed.

(** ** Unsupported tokens *)

(** C5 (as amended): a pattern with a character outside ASCII anywhere in
    it is refused: [RegexFSM] raises [AttributeError] and returns no
    automaton, in every state of the module. *)
Theorem RegexFSM_init_rejects_non_ascii
    (σ : store) (regex_expr : str) (c : char) :
  c ∈ regex_expr → isascii c = false →
  (RegexFSM_init regex_expr σ).2 = Raise AttributeError.
Proof.
  intros Hin Hc. unfold RegexFSM_init.
  apply bind_raises; [apply new_attribute_error_only|]. intros head σ1.
  unfold bind at 1.
  pose proof (build_loop_non_ascii (length regex_expr) regex_expr head σ1 c
                (le_n _) Hin Hc) as Hloop.
  destruct (build_loop regex_expr head σ1) as [σ2 [a|e|]];
    simpl in Hloop; [discriminate | | discriminate].
  by injection Hloop as ->.
Qed.

Lemma RegexFSM_init_rejects_non_ascii_witness :
  233%N ∈ [97%N; 233%N] ∧ isascii 233%N = false
  ∧ (RegexFSM_init [97%N; 233%N] module_init).2 = Raise AttributeError.
Proof.
  split; [apply list_elem_of_further, list_elem_of_here|].
  split; [reflexivity|].
  apply (RegexFSM_init_rejects_non_ascii module_init [97%N; 233%N] 233%N);
    [apply list_elem_of_further, list_elem_of_here | reflexivity].
Defined.

(** C5 as stated fails on a bracket: [RegexFSM("[")] returns an automaton,
    and that automaton accepts the one-character input of the bracket. *)
Lemma bracket_pattern_builds :
  (RegexFSM_init (py "[") module_init).2 = Ok (mkRegexFSM 1 1)
  ∧ build_and_check "[" "[" = Ok true.
Proof. vm_compute. done. Qed.

(** ** Scripts *)



(** The code does not keep to the reason the scenario gives.  The nodes
    of one class share one edge list, so the same automaton also accepts
    ["a4hi"], where nothing stands between [4] and [hi]; and once
    [RegexFSM(".")] has been built, the automaton of ["a*4.+hi"] accepts
    ["meow"]. *)
Lemma scenario_pattern_accepts_a4hi :
  build_and_check "a*4.+hi" "a4hi" = Ok true.
Proof. vm_compute. done. Qed.

Lemma scenario_pattern_after_dot_accepts_meow :
  let σ := (RegexFSM_init (py ".") module_init).1 in
  build_and_check_in σ (py "a*4.+hi") (py "meow") = Ok true.
Proof. vm_compute. done. Qed.

(** C2 fails on the code: the automaton of the two-literal pattern ["ab"],
    built right after the module is loaded, accepts the one-character
    input ["a"]. *)
Theorem literal_pattern_ab_accepts_a :
  build_and_check "ab" "a" = Ok true
  ∧ length (py "ab") ≠ length (py "a").
Proof. vm_compute. split; [done | discriminate]. Qed.

(** C3 fails on the code: [RegexFSM("*")] returns an automaton, and
    [check_string("x")] on it raises [AttributeError]. *)
Theorem check_string_raises_on_star_pattern :
  (RegexFSM_init (py "*") module_init).2 = Ok (mkRegexFSM 1 1)
  ∧ build_and_check "*" "x" = Raise AttributeError.
Proof. vm_compute. done. Qed.

(** C4 fails on the code: after [RegexFSM("a")], the start node of that
    automaton has one outgoing edge and the automaton rejects ["b"]; after
    a later [RegexFSM("b")] the same node has two and the same automaton
    accepts ["b"]. *)
Theorem second_build_rewires_first :
  let r1 := RegexFSM_init (py "a") module_init in
  let r2 := RegexFSM_init (py "b") r1.1 in
  r1.2 = Ok (mkRegexFSM 1 1)
  ∧ out_edges r1.1 1 = Some [2]
  ∧ (check_string (mkRegexFSM 1 1) (py "b") r1.1).2 = Ok false
  ∧ r2.2 = Ok (mkRegexFSM 4 4)
  ∧ out_edges r2.1 1 = Some [2; 5]
  ∧ (check_string (mkRegexFSM 1 1) (py "b") r2.1).2 = Ok true.
Proof. vm_compute. done. Qed.

(** C6 fails on the code: [f = RegexFSM("ab")] rejects ["x"]; after a
    later [RegexFSM("x")] the same call [f.check_string("x")], on the same
    automaton with the same input, returns true.  [check_string] and
    [get_closure] write to their own local sets and queue only; the edge
    lists that the nodes of [f] read are written by the second
    construction. *)
Theorem repeated_check_changes_after_build :
  (repeated_check (py "ab") (py "x") (py "x") module_init).2
  = Ok (false, true).
Proof. vm_compute. done. Qed.

(** C7 fails on the code: once [RegexFSM("a+")] has been built, the
    automaton of ["b+"] accepts ["a"], and so does it accept ["ab"]. *)
Theorem plus_pattern_accepts_other_char :
  let σ := (RegexFSM_init (py "a+") module_init).1 in
  build_and_check_in σ (py "b+") (py "a") = Ok true
  ∧ build_and_check_in σ (py "b+") (py "ab") = Ok true
  ∧ forallb (token_matches 98%N) (py "a") = false.
Proof. vm_compute. done. Qed.

(** C8 fails on the code: once [RegexFSM("a")] has been built, the
    automaton of the empty pattern accepts the non-empty input ["a"]. *)
Theorem empty_pattern_accepts_nonempty :
  let σ := (RegexFSM_init (py "a") module_init).1 in
  build_and_check_in σ (py "") (py "a") = Ok true
  ∧ py "a" ≠ [].
Proof. vm_compute. split; [done | discriminate]. Qed.

(** * Further properties of the module *)

(** Whatever holds of [closing], and passes along the targets, holds of
    what the loop returns. *)
Lemma closure_loop_least (σ : store) (P : addr → Prop) (fuel : nat) :
  (∀ x y, P x → y ∈ epsilon_targets σ x → P y) →
  ∀ (closing : gset addr) (queue : list addr) (C : gset addr),
    closure_loop fuel σ closing queue = Some C →
    (∀ x, x ∈ queue → x ∈ closing) →
    (∀ x, x ∈ closing → P x) →
    ∀ x, x ∈ C → P x.
Proof.
  intros HP. induction fuel as [|fuel IH]; intros closing queue C Hrun Hq Hc.
  - destruct queue; [|done]. simpl in Hrun. by injection Hrun as <-.
  - destruct queue as [|z queue]; simpl in Hrun.
    { by injection Hrun as <-. }
    destruct (closure_step_spec σ z (closing, queue))
      as (new & Hstep & _ & Hnew & _). simpl in Hstep, Hnew.
    rewrite Hstep in Hrun. simpl in Hrun.
    apply (IH _ _ _ Hrun).
    + intros x [Hx|Hx]%elem_of_app.
      * apply elem_of_union_l, Hq. by right.
      * by apply elem_of_union_r, elem_of_list_to_set.
    + intros x [Hx|Hx]%elem_of_union; [by apply Hc|].
      apply elem_of_list_to_set in Hx. destruct (Hnew x Hx) as [_ Ht].
      apply (HP z x); [|done]. apply Hc, Hq. by left.
Qed.

Lemma get_closure_reachable_iff (σ : store) (S C : gset addr) :
  get_closure σ S = Ok C → ∀ x, x ∈ C ↔ reachable σ S x.
Proof.
  intros Hget.
  destruct (get_closure_spec σ S) as (C' & Hget' & Hsub & Hclosed & Hloop).
  rewrite Hget in Hget'. injection Hget' as <-.
  intros x. split.
  - apply (closure_loop_least σ (reachable σ S) (size C)
             (λ a b Ha Hb, reachable_step σ S a b Ha Hb)
             S (elements S) C).
    + rewrite Hloop. by case_decide.
    + intros y. by rewrite elem_of_elements.
    + intros y. apply reachable_seed.
  - induction 1 as [y Hy|y z _ IH Hz]; [by apply Hsub|].
    by apply (Hclosed y z).
Qed.

(** X1: on every state of the module and every set [S], [get_closure]
    returns exactly the nodes that can be reached from [S] along the edges
    it follows: every edge of a [StartState], the edges of a [StarState] or
    [PlusState] other than the one to its [checking_state], and no edge of
    the other states. *)
Theorem get_closure_reachable (σ : store) (S : gset addr) :
  ∃ C : gset addr,
    get_closure σ S = Ok C ∧ ∀ x, x ∈ C ↔ reachable σ S x.
Proof.
  destruct (get_closure_spec σ S) as (C & Hget & _).
  exists C. split; [done|]. by apply get_closure_reachable_iff.
Qed.

Lemma reachable_union (σ : store) (S T : gset addr) (x : addr) :
  reachable σ (S ∪ T) x ↔ reachable σ S x ∨ reachable σ T x.
Proof.
  split.
  - induction 1 as [y [Hy|Hy]%elem_of_union|y z _ [IH|IH] Hz].
    + left. by apply reachable_seed.
    + right. by apply reachable_seed.
    + left. by apply (reachable_step _ _ y).
    + right. by apply (reachable_step _ _ y).
  - intros [H|H]; induction H as [y Hy|y z _ IH Hz].
    + apply reachable_seed. by apply elem_of_union_l.
    + by apply (reachable_step _ _ y).
    + apply reachable_seed. by apply elem_of_union_r.
    + by apply (reachable_step _ _ y).
Qed.

(** X2: the closure of a union is the union of the closures: for all
    sets [S] and [T], [get_closure(S | T)] is
    [get_closure(S) | get_closure(T)]. *)
Theorem get_closure_union (σ : store) (S T : gset addr) :
  ∃ CS CT : gset addr,
    get_closure σ S = Ok CS ∧ get_closure σ T = Ok CT
    ∧ get_closure σ (S ∪ T) = Ok (CS ∪ CT).
Proof.
  destruct (get_closure_spec σ S) as (CS & HS & _).
  destruct (get_closure_spec σ T) as (CT & HT & _).
  destruct (get_closure_spec σ (S ∪ T)) as (C & HC & _).
  exists CS, CT. split_and!; [done | done |].
  rewrite HC. f_equal. apply set_eq. intros x.
  rewrite elem_of_union, (get_closure_reachable_iff σ _ _ HC),
    (get_closure_reachable_iff σ _ _ HS), (get_closure_reachable_iff σ _ _ HT).
  apply reachable_union.
Qed.


(** ** Construction only adds *)

Lemma extends_refl (σ : store) : extends σ σ.
Proof. split; [reflexivity|]. intros o. reflexivity. Qed.

Lemma extends_trans (σ1 σ2 σ3 : store) :
  extends σ1 σ2 → extends σ2 σ3 → extends σ1 σ3.
Proof.
  intros [Hh1 Hn1] [Hh2 Hn2]. split; [by trans (heap σ2)|].
  intros o. by trans (next_states σ2 o).
Qed.

Lemma grows_new (o : State) : grows (new o).
Proof.
  intros σ. split; [by apply prefix_app_r|]. intros []; reflexivity.
Qed.

Lemma grows_append (x y : addr) : grows (append x y).
Proof.
  intros σ. unfold append. destruct (heap σ !! x) as [o|];
    [|apply extends_refl].
  split; [destruct o; reflexivity|].
  intros o'; destruct o, o'; simpl; reflexivity || by apply prefix_app_r.
Qed.

Lemma grows_ret {A} (a : A) : grows (ret a).
Proof. intros σ. apply extends_refl. Qed.

Lemma grows_bind {A B} (m : M A) (k : A → M B) :
  grows m → (∀ a, grows (k a)) → grows (bind m k).
Proof.
  intros Hm Hk σ. specialize (Hm σ). unfold bind.
  destruct (m σ) as [σ1 [a| |]]; simpl in *; [|done..].
  eapply extends_trans; [done|]. apply Hk.
Qed.

Lemma grows_init_next_state (t : char) (tmp : option addr) :
  grows (init_next_state t tmp).
Proof.
  unfold init_next_state.
  repeat match goal with |- context [if ?b then _ else _] => destruct b end;
    try apply grows_new.
  intros σ. apply extends_refl.
Qed.

Ltac grows_steps :=
  repeat first
    [ apply grows_bind; [|intros ?]
    | apply grows_init_next_state
    | apply grows_new
    | apply grows_append
    | apply grows_ret ].

Lemma grows_build_loop (n : nat) :
  ∀ (rest : str) (current_state : addr),
    length rest ≤ n → grows (build_loop rest current_state).
Proof.
  induction n as [|n IH]; intros rest cur Hlen.
  { destruct rest; [apply grows_ret | simpl in Hlen; lia]. }
  destruct rest as [|token rest1]; [apply grows_ret|].
  rewrite build_loop_unfold. simpl in Hlen.
  destruct rest1 as [|next rest2].
  - grows_steps.
  - destruct (next =? star)%N; [|destruct (next =? plus)%N];
      grows_steps; try (apply IH; simpl in *; lia).
Qed.

(** X6: [RegexFSM(regex_expr)] only appends, whether it returns or raises:
    the objects the module had are still there, unchanged and at the same
    place, and every class-level [next_states] list starts with what it held
    before. *)
Theorem RegexFSM_init_only_appends (regex_expr : str) (σ : store) :
  extends σ (RegexFSM_init regex_expr σ).1.
Proof.
  revert σ. change (grows (RegexFSM_init regex_expr)).
  unfold RegexFSM_init. grows_steps.
  by apply (grows_build_loop (length regex_expr)).
Qed.


(** ** Construction on ASCII patterns *)

Lemma returns_bind {A B} (m : M A) (k : A → M B) (σ : store)
    (Q : store → B → Prop) :
  returns m σ (λ σ1 a, returns (k a) σ1 Q) → returns (bind m k) σ Q.
Proof.
  intros (σ1 & a & Hm & σ2 & b & Hk & HQ). exists σ2, b.
  split; [|done]. unfold bind. by rewrite Hm.
Qed.

Lemma returns_new (o : State) (σ : store) (Q : store → addr → Prop) :
  Q (alloc σ o) (length (heap σ)) → returns (new o) σ Q.
Proof. intros HQ. by exists (alloc σ o), (length (heap σ)). Qed.

Lemma returns_append (x y : addr) (o : State) (σ : store)
    (Q : store → unit → Prop) :
  heap σ !! x = Some o → Q (append_next_states σ o y) tt →
  returns (append x y) σ Q.
Proof.
  intros Hx HQ. exists (append_next_states σ o y), tt.
  split; [|done]. unfold append. by rewrite Hx.
Qed.

Lemma init_next_state_ascii (t : char) (tmp : option addr) :
  isascii t = true → init_next_state t tmp = new (token_object t tmp).
Proof.
  intros Ht. unfold init_next_state, token_object. rewrite Ht.
  by repeat match goal with |- context [if ?b then _ else _] => destruct b end.
Qed.

Lemma token_object_not_start (t : char) (tmp : option addr) :
  token_object t tmp ≠ StartState.
Proof.
  unfold token_object.
  by repeat match goal with |- context [if ?b then _ else _] => destruct b end.
Qed.

Lemma heap_alloc (σ : store) (o : State) : heap (alloc σ o) = heap σ ++ [o].
Proof. done. Qed.

Lemma heap_append_next_states (σ : store) (o : State) (y : addr) :
  heap (append_next_states σ o y) = heap σ.
Proof. by destruct o. Qed.

Lemma start_alloc (σ : store) (o : State) :
  StartState_next_states (alloc σ o) = StartState_next_states σ.
Proof. done. Qed.

Lemma start_append_next_states (σ : store) (o : State) (y : addr) :
  StartState_next_states (append_next_states σ o y)
  = StartState_next_states σ
    ++ (if decide (o = StartState) then [y] else []).
Proof. destruct o; simpl; by rewrite ?app_nil_r. Qed.

Lemma returns_mono {A} (m : M A) (σ : store) (Q Q' : store → A → Prop) :
  (∀ σ' a, Q σ' a → Q' σ' a) → returns m σ Q → returns m σ Q'.
Proof. intros HQ (σ' & a & Hm & Ha). exists σ', a. auto. Qed.

Lemma lookup_snoc {A} (l : list A) (a : A) : (l ++ [a]) !! length l = Some a.
Proof. by rewrite lookup_app_r, Nat.sub_diag. Qed.

(** One turn of the loop, then the rest of it. *)
Lemma loop_result_step (σ σk σ' : store) (rest rest' : str)
    (cur cur' last y : addr) (oc : State) (objs : list State) :
  heap σk = heap σ ++ objs →
  length rest = length objs + length rest' →
  objs ≠ [] →
  (∀ o, o ∈ objs → o ≠ StartState) →
  length (heap σ) ≤ cur' < length (heap σk) →
  heap σ !! cur = Some oc →
  StartState_next_states σk
  = StartState_next_states σ ++ (if decide (oc = StartState) then [y] else []) →
  loop_result σk rest' cur' σ' last →
  loop_result σ rest cur σ' last.
Proof.
  intros Hheap Hlen Hobjs Hns Hcur' Hoc Hstart
    (Hl & Hpre & Hlast & Hnil & Hcons & Hnew & l & Hl1 & Hl2).
  assert (Hrest : rest ≠ []).
  { intros ->. destruct objs; [done | simpl in Hlen; lia]. }
  assert (Hk : length (heap σk) = length (heap σ) + length objs).
  { by rewrite Hheap, length_app. }
  assert (Hobj : ∀ x, length (heap σ) ≤ x < length (heap σk) →
                      heap σk !! x ≠ Some StartState).
  { intros x Hx Hlk. rewrite Hheap, lookup_app_r in Hlk by lia.
    apply list_elem_of_lookup_2 in Hlk. by apply Hns in Hlk. }
  split_and!.
  - lia.
  - trans (heap σk); [|done]. rewrite Hheap. by apply prefix_app_r.
  - done.
  - done.
  - intros _. destruct rest' as [|c rest'].
    + rewrite Hnil by done. lia.
    + assert (length (heap σk) ≤ last) by by apply Hcons. lia.
  - intros x Hx. destruct (decide (length (heap σk) ≤ x)); [by apply Hnew|].
    intros Hlk. apply (Hobj x); [lia|].
    destruct Hpre as [tl Htl]. rewrite Htl in Hlk.
    by rewrite lookup_app_l in Hlk by lia.
  - assert (l = []) as ->.
    { apply length_zero_iff_nil. rewrite Hl2.
      case_decide as Hd; [|done]. destruct Hd as [_ Hd].
      by apply Hobj in Hd. }
    rewrite app_nil_r in Hl1. rewrite Hl1, Hstart.
    eexists. split; [done|].
    repeat case_decide; simpl; try done; naive_solver.
Qed.

Lemma build_loop_ascii (n : nat) :
  ∀ (rest : str) (cur : addr) (σ : store),
    length rest ≤ n → Forall (λ c, isascii c = true) rest →
    cur < length (heap σ) →
    returns (build_loop rest cur) σ (loop_result σ rest cur).
Proof.
  induction n as [|n IH]; intros rest cur σ Hlen Hascii Hcur.
  { destruct rest; [|simpl in Hlen; lia].
    exists σ, cur. split; [done|]. unfold loop_result.
    split_and!; [simpl; lia | done | done | done | done | |].
    - intros x Hx Hl. apply lookup_lt_Some in Hl. lia.
    - exists []. rewrite app_nil_r. split; [done|].
      case_decide as H; [by destruct H|done]. }
  destruct rest as [|token rest1].
  { exists σ, cur. split; [done|]. unfold loop_result.
    split_and!; [simpl; lia | done | done | done | done | |].
    - intros x Hx Hl. apply lookup_lt_Some in Hl. lia.
    - exists []. rewrite app_nil_r. split; [done|].
      case_decide as H; [by destruct H|done]. }
  apply Forall_cons in Hascii as [Htok Hascii]. simpl in Hlen.
  destruct (lookup_lt_is_Some_2 (heap σ) cur Hcur) as [oc Hoc].
  rewrite build_loop_unfold.
  set (o := token_object token None).
  set (n0 := length (heap σ)).
  assert (Hplain :
    returns (new_state <- init_next_state token None ;;
             append cur new_state ;; build_loop rest1 new_state) σ
      (loop_result σ (token :: rest1) cur)).
  { rewrite init_next_state_ascii by done.
    apply returns_bind, returns_new.
    apply returns_bind, (returns_append _ _ oc).
    { rewrite heap_alloc. by apply lookup_app_l_Some. }
    eapply returns_mono; [|apply IH].
    - intros σ' last. apply (loop_result_step _ _ _ _ _ _ _ _ n0 oc [o]).
      + by rewrite heap_append_next_states, heap_alloc.
      + done.
      + done.
      + intros ? ->%list_elem_of_singleton. apply token_object_not_start.
      + rewrite heap_append_next_states, heap_alloc, length_app. simpl.
        unfold n0. lia.
      + done.
      + by rewrite start_append_next_states, start_alloc.
    - lia.
    - done.
    - rewrite heap_append_next_states, heap_alloc, length_app. simpl.
      unfold n0. lia. }
  destruct rest1 as [|next rest2]; [exact Hplain|].
  apply Forall_cons in Hascii as [Hnext Hascii]. simpl in Hlen.
  destruct (next =? star)%N; [|destruct (next =? plus)%N; [|exact Hplain]].
  - rewrite init_next_state_ascii by done.
    apply returns_bind, returns_new. fold o n0.
    apply returns_bind, returns_new.
    rewrite heap_alloc, length_app. simpl. fold n0.
    set (w := StarState (Some n0)).
    apply returns_bind, (returns_append _ _ oc).
    { rewrite !heap_alloc. by apply lookup_app_l_Some, lookup_app_l_Some. }
    apply returns_bind, (returns_append _ _ w).
    { rewrite heap_append_next_states, !heap_alloc.
      replace (n0 + 1) with (length (heap σ ++ [o])); [apply lookup_snoc|].
      rewrite length_app. done. }
    apply returns_bind, (returns_append _ _ o).
    { rewrite !heap_append_next_states, !heap_alloc.
      apply lookup_app_l_Some, lookup_snoc. }
    eapply returns_mono; [|apply IH].
    + intros σ' last.
      apply (loop_result_step _ _ _ _ _ _ _ _ (n0 + 1) oc [o; w]).
      * rewrite !heap_append_next_states, !heap_alloc.
        by rewrite <- app_assoc.
      * done.
      * done.
      * intros ? [->| ->%list_elem_of_singleton]%elem_of_cons;
          [apply token_object_not_start | done].
      * rewrite !heap_append_next_states, !heap_alloc, !length_app. simpl.
        unfold n0. lia.
      * done.
      * rewrite !start_append_next_states, !start_alloc.
        rewrite (decide_False (P := w = StartState)) by done.
        rewrite (decide_False (P := o = StartState))
          by apply token_object_not_start.
        by rewrite !app_nil_r.
    + lia.
    + done.
    + rewrite !heap_append_next_states, !heap_alloc, !length_app. simpl.
      unfold n0. lia.
  - rewrite init_next_state_ascii by done.
    apply returns_bind, returns_new. fold o n0.
    apply returns_bind, returns_new.
    rewrite heap_alloc, length_app. simpl. fold n0.
    set (w := PlusState (Some n0)).
    apply returns_bind, (returns_append _ _ oc).
    { rewrite !heap_alloc. by apply lookup_app_l_Some, lookup_app_l_Some. }
    apply returns_bind, (returns_append _ _ o).
    { rewrite heap_append_next_states, !heap_alloc.
      apply lookup_app_l_Some, lookup_snoc. }
    apply returns_bind, (returns_append _ _ w).
    { rewrite !heap_append_next_states, !heap_alloc.
      replace (n0 + 1) with (length (heap σ ++ [o])); [apply lookup_snoc|].
      rewrite length_app. done. }
    eapply returns_mono; [|apply IH].
    + intros σ' last.
      apply (loop_result_step _ _ _ _ _ _ _ _ n0 oc [o; w]).
      * rewrite !heap_append_next_states, !heap_alloc.
        by rewrite <- app_assoc.
      * done.
      * done.
      * intros ? [->| ->%list_elem_of_singleton]%elem_of_cons;
          [apply token_object_not_start | done].
      * rewrite !heap_append_next_states, !heap_alloc, !length_app. simpl.
        unfold n0. lia.
      * done.
      * rewrite !start_append_next_states, !start_alloc.
        rewrite (decide_False (P := w = StartState)) by done.
        rewrite (decide_False (P := o = StartState))
          by apply token_object_not_start.
        by rewrite !app_nil_r.
    + lia.
    + done.
    + rewrite !heap_append_next_states, !heap_alloc, !length_app. simpl.
      unfold n0. lia.
Qed.


Lemma RegexFSM_init_ascii (σ : store) (regex_expr : str) :
  Forall (λ c, isascii c = true) regex_expr →
  returns (RegexFSM_init regex_expr) σ (built σ regex_expr).
Proof.
  intros Hascii. unfold RegexFSM_init.
  apply returns_bind, returns_new.
  set (h := length (heap σ)). set (σ0 := alloc σ StartState).
  assert (Hh : heap σ0 !! h = Some StartState) by apply lookup_snoc.
  assert (Hlen0 : length (heap σ0) = h + 1).
  { unfold σ0. by rewrite heap_alloc, length_app. }
  apply returns_bind.
  eapply returns_mono;
    [|apply (build_loop_ascii (length regex_expr) regex_expr h σ0);
      [done | done | lia]].
  intros σ1 last (Hl & Hpre & Hlast & Hnil & Hcons & Hnew & l & Hl1 & Hl2).
  apply returns_bind, returns_new.
  destruct (lookup_lt_is_Some_2 (heap σ1) last Hlast) as [ol Hol].
  apply returns_bind, (returns_append _ _ ol).
  { rewrite heap_alloc. by apply lookup_app_l_Some. }
  exists (append_next_states (alloc σ1 TerminationState) ol (length (heap σ1))),
    (mkRegexFSM h h).
  split; [done|]. unfold built.
  rewrite heap_append_next_states, heap_alloc.
  assert (Hh1 : heap σ1 !! h = Some StartState).
  { destruct Hpre as [tl ->]. by apply lookup_app_l_Some. }
  split_and!.
  - done.
  - rewrite length_app. simpl. unfold h in *. lia.
  - by apply lookup_app_l_Some.
  - replace (length (heap σ) + length regex_expr + 1)
      with (length (heap σ1)) by (unfold h in *; lia).
    apply lookup_snoc.
  - intros x Hx Hlk. destruct (decide (x < length (heap σ1))) as [Hlt|Hge].
    + rewrite lookup_app_l in Hlk by done.
      apply (Hnew x); [unfold h in *; lia | done].
    + apply lookup_lt_Some in Hlk as Hx2. rewrite length_app in Hx2.
      simpl in Hx2. assert (x = length (heap σ1)) as -> by lia.
      by rewrite lookup_snoc in Hlk.
  - rewrite start_append_next_states, start_alloc, Hl1.
    change (StartState_next_states σ0) with (StartState_next_states σ).
    destruct regex_expr as [|c rest].
    + rewrite Hnil in Hol by done. rewrite Hh1 in Hol. injection Hol as <-.
      rewrite decide_True by done.
      rewrite decide_False in Hl2 by (by intros [? _]).
      apply length_zero_iff_nil in Hl2 as ->.
      rewrite app_nil_r. by eexists.
    + rewrite decide_True in Hl2 by done.
      destruct l as [|a [|??]]; try done.
      rewrite decide_False.
      * rewrite app_nil_r. by eexists.
      * intros ->. apply (Hnew last); [|done].
        apply Hcons. done.
Qed.

Lemma RegexFSM_init_non_ascii (σ : store) (regex_expr : str) (c : char) :
  c ∈ regex_expr → isascii c = false →
  (RegexFSM_init regex_expr σ).2 = Raise AttributeError.
Proof.
  intros Hin Hc. unfold RegexFSM_init.
  apply bind_raises; [apply new_attribute_error_only|]. intros head σ1.
  unfold bind at 1.
  pose proof (build_loop_non_ascii (length regex_expr) regex_expr head σ1 c
                (le_n _) Hin Hc) as Hloop.
  destruct (build_loop regex_expr head σ1) as [σ2 [a|e|]];
    simpl in Hloop; [discriminate | | discriminate].
  by injection Hloop as ->.
Qed.

(** X4: in every state of the module, [RegexFSM(regex_expr)] returns an
    automaton exactly when every character of the pattern is ASCII. *)
Theorem RegexFSM_init_returns_iff_ascii (σ : store) (regex_expr : str) :
  (∃ fsm, (RegexFSM_init regex_expr σ).2 = Ok fsm)
  ↔ Forall (λ c, isascii c = true) regex_expr.
Proof.
  split.
  - intros [fsm Hfsm]. apply Forall_forall. intros c Hc.
    destruct (isascii c) eqn:Hcc; [done|].
    rewrite (RegexFSM_init_non_ascii σ regex_expr c Hc Hcc) in Hfsm. done.
  - intros Hascii.
    destruct (RegexFSM_init_ascii σ regex_expr Hascii)
      as (σ' & fsm & Hrun & _).
    exists fsm. by rewrite Hrun.
Qed.

(** X5: when [RegexFSM(regex_expr)] returns, [fsm_head] and [curr_state]
    are the same new [StartState]; the call has allocated one object per
    character of the pattern and two more, the last of them the
    [TerminationState]; and it has appended exactly one edge to
    [StartState.next_states]. *)
Theorem RegexFSM_init_shape (σ σ' : store) (regex_expr : str)
    (fsm : RegexFSM) :
  RegexFSM_init regex_expr σ = (σ', Ok fsm) →
  fsm_head fsm = length (heap σ)
  ∧ curr_state fsm = length (heap σ)
  ∧ heap σ' !! fsm_head fsm = Some StartState
  ∧ length (heap σ') = length (heap σ) + length regex_expr + 2
  ∧ heap σ' !! (length (heap σ) + length regex_expr + 1)
    = Some TerminationState
  ∧ ∃ a, StartState_next_states σ' = StartState_next_states σ ++ [a].
Proof.
  intros Hrun.
  assert (Hascii : Forall (λ c, isascii c = true) regex_expr).
  { apply Forall_forall. intros c Hc.
    destruct (isascii c) eqn:Hcc; [done|].
    pose proof (RegexFSM_init_non_ascii σ regex_expr c Hc Hcc) as Hr.
    by rewrite Hrun in Hr. }
  destruct (RegexFSM_init_ascii σ regex_expr Hascii)
    as (σ2 & fsm2 & Hrun2 & -> & Hlen & Hhead & Hterm & _ & Hstart).
  rewrite Hrun in Hrun2. injection Hrun2 as -> ->.
  by split_and!.
Qed.

Lemma RegexFSM_init_shape_witness :
  RegexFSM_init (py "a*b") module_init
  = ((RegexFSM_init (py "a*b") module_init).1, Ok (mkRegexFSM 1 1))
  ∧ length (heap (RegexFSM_init (py "a*b") module_init).1) = 6.
Proof.
  split; [by vm_compute|].
  destruct (RegexFSM_init_shape module_init
              (RegexFSM_init (py "a*b") module_init).1 (py "a*b")
              (mkRegexFSM 1 1)) as (_ & _ & _ & Hlen & _); [by vm_compute|].
  exact Hlen.
Defined.


(** ** [check_next] *)

Lemma check_next_unfold (σ : store) (x : addr) (c : char) :
  check_next σ x c
  = match heap σ !! x with
    | None => Raise AttributeError
    | Some o => first_accepting σ c (next_states σ o)
    end.
Proof. reflexivity. Qed.

Lemma first_accepting_spec (σ : store) (c : char) (l : list addr) :
  ∀ before : list addr,
    (∀ y, y ∈ before → refuses σ c y) →
    (∀ s, first_accepting σ c l = Ok s →
          ∃ before' after,
            before ++ l = before' ++ s :: after
            ∧ (∀ y, y ∈ before' → refuses σ c y) ∧ accepts σ c s)
    ∧ (first_accepting σ c l = Raise NotImplementedError →
       ∀ y, y ∈ before ++ l → refuses σ c y)
    ∧ (∀ e, e ≠ NotImplementedError → first_accepting σ c l = Raise e →
            ∃ y, y ∈ l ∧ check_self recursion_limit σ y c = Raise e)
    ∧ first_accepting σ c l ≠ Diverge.
Proof.
  induction l as [|s l IH]; intros before Hbefore.
  { rewrite app_nil_r. split_and!; try done. by intros e He [= <-]. }
  pose proof (check_self_surfaced recursion_limit σ s c) as Hs.
  assert (Hcons : first_accepting σ c (s :: l)
                  = (v <~ check_self recursion_limit σ s c ;;
                     if truthy v then Ok s else first_accepting σ c l))
    by reflexivity.
  rewrite Hcons. clear Hcons.
  destruct (check_self recursion_limit σ s c) as [v|e|] eqn:Hv;
    cbn [obind]; [| |done].
  - destruct (truthy v) eqn:Hvt.
    + split_and!; try done.
      intros s' [= <-]. exists before, l.
      split_and!; [done | done |]. by exists v.
    + assert (Hb : ∀ y, y ∈ before ++ [s] → refuses σ c y).
      { intros y [Hy| ->%list_elem_of_singleton]%elem_of_app;
          [by apply Hbefore | by exists v]. }
      destruct (IH (before ++ [s]) Hb) as (IH1 & IH2 & IH3 & IH4).
      rewrite <- app_assoc in IH1, IH2. simpl in IH1, IH2.
      split_and!; [done | done | | done].
      intros e He Hr. destruct (IH3 e He Hr) as (y & Hy & Hye).
      exists y. split; [by right | done].
  - split_and!; try done.
    + intros [= ->]. done.
    + intros e' He' [= <-]. exists s. split; [by left | done].
Qed.

(** X7: [check_next] returns the first state of [next_states] whose
    [check_self] accepts the character, every state before it having
    refused; it raises [NotImplementedError] exactly when it has gone
    through the whole list and every state has refused; any other exception
    is one raised by a [check_self] it called. *)
Theorem check_next_spec (σ : store) (x : addr) (c : char) (o : State) :
  heap σ !! x = Some o →
  match check_next σ x c with
  | Ok s =>
      ∃ before after,
        next_states σ o = before ++ s :: after
        ∧ (∀ y, y ∈ before → refuses σ c y) ∧ accepts σ c s
  | Raise NotImplementedError => ∀ y, y ∈ next_states σ o → refuses σ c y
  | Raise e =>
      ∃ y, y ∈ next_states σ o ∧ check_self recursion_limit σ y c = Raise e
  | Diverge => False
  end.
Proof.
  intros Hx. rewrite check_next_unfold, Hx.
  destruct (first_accepting_spec σ c (next_states σ o) [])
    as (H1 & H2 & H3 & H4); [by intros y ?%elem_of_nil|].
  destruct (first_accepting σ c (next_states σ o)) as [s|e|]; [| |done].
  - by apply H1.
  - destruct e; [by apply H3 | by apply H2 | by apply H3].
Qed.

Lemma check_next_spec_witness :
  heap (RegexFSM_init (py "ab") module_init).1 !! 1 = Some StartState
  ∧ check_next (RegexFSM_init (py "ab") module_init).1 1 98%N
    = Raise NotImplementedError
  ∧ ∀ y, y ∈ StartState_next_states (RegexFSM_init (py "ab") module_init).1 →
         refuses (RegexFSM_init (py "ab") module_init).1 98%N y.
Proof.
  unfold refuses.
  split; [by vm_compute|]. split; [by vm_compute|].
  pose proof (check_next_spec (RegexFSM_init (py "ab") module_init).1
                1 98%N StartState) as H.
  replace (check_next _ _ _) with (@Raise addr NotImplementedError) in H
    by by vm_compute.
  apply H. by vm_compute.
Defined.


(** ** Characters no object takes *)

Lemma check_self_no_consumer (σ : store) (c : char) :
  ¬ consumes σ c →
  ∀ depth x v, check_self depth σ x c = Ok v → truthy v = false.
Proof.
  intros Hc. induction depth as [|depth IH]; intros x v; [done|].
  cbn [check_self].
  destruct (heap σ !! x) as [[| | | sym | chk | chk]|] eqn:Hx;
    try by intros [= <-].
  - exfalso. apply Hc. exists x. by left.
  - intros [= <-]. simpl. apply not_true_is_false. intros ->%N.eqb_eq.
    apply Hc. exists x. by right.
  - induction (StarState_next_states σ) as [|s l IHl]; [by intros [= <-]|].
    destruct (check_self depth σ s c) as [v0|e|] eqn:Hv0; cbn [obind];
      [|done..].
    rewrite (IH s v0 Hv0). apply IHl.
Qed.

Lemma step_state_no_consumer (σ : store) (c : char) (acc R : gset addr)
    (a : addr) :
  ¬ consumes σ c → step_state σ c acc a = Ok R → R = acc.
Proof.
  intros Hc. unfold step_state. generalize recursion_limit. intros depth.
  destruct (heap σ !! a) as [[| | | sym | [k|] | [k|]]|];
    try (by intros [= <-]);
    (destruct (check_self depth σ _ c) as [v|e|] eqn:Hv;
     cbn [obind]; [|discriminate..];
     rewrite (check_self_no_consumer σ c Hc _ _ _ Hv); by intros [= <-]).
Qed.

Lemma for_each_no_consumer (σ : store) (c : char) (l : list addr) :
  ¬ consumes σ c →
  ∀ acc R, for_each (step_state σ c) acc l = Ok R → R = acc.
Proof.
  intros Hc. induction l as [|a l IH]; intros acc R; [by intros [= <-]|].
  cbn [for_each].
  destruct (step_state σ c acc a) as [acc'|e|] eqn:Ha; cbn [obind]; [|done..].
  apply (step_state_no_consumer σ c _ _ _ Hc) in Ha as ->. apply IH.
Qed.

Lemma run_no_consumer (σ : store) (c : char) (text : str) :
  ¬ consumes σ c → c ∈ text → ∀ active, run σ active text ≠ Ok true.
Proof.
  intros Hc. induction text as [|c' text IH]; intros Hin active.
  { by apply elem_of_nil in Hin. }
  cbn [run].
  destruct (for_each (step_state σ c') ∅ (elements active))
    as [next|e|] eqn:Hnext; cbn [obind]; [|done..].
  case_bool_decide as Hempty; [done|].
  apply elem_of_cons in Hin as [<-|Hin].
  - by apply (for_each_no_consumer σ c _ Hc) in Hnext.
  - destruct (get_closure σ next) as [closing|e|]; cbn [obind]; [|done..].
    by apply IH.
Qed.

Lemma check_string_in_no_consumer (σ : store) (self : RegexFSM)
    (c : char) (text : str) :
  ¬ consumes σ c → c ∈ text →
  check_string_in σ self text = Ok false
  ∨ ∃ e, check_string_in σ self text = Raise e.
Proof.
  intros Hc Hin.
  assert (Hne : check_string_in σ self text ≠ Ok true).
  { unfold check_string_in.
    destruct (get_closure σ {[curr_state self]}) as [A|e|]; cbn [obind];
      [|done..].
    by apply (run_no_consumer σ c). }
  pose proof (check_string_surfaced σ self text) as Hs.
  change (check_string self text σ).2 with (check_string_in σ self text)
    in Hs.
  destruct (check_string_in σ self text) as [[]|e|]; [done| | |done].
  - by left.
  - right. by exists e.
Qed.


(** ** What construction allocates *)

Lemma allocates_mono {A} (P Q : State → Prop) (m : M A) :
  (∀ o, P o → Q o) → allocates P m → allocates Q m.
Proof. intros HPQ Hm σ x o Hx. destruct (Hm σ x o Hx); auto. Qed.

Lemma allocates_new (o : State) (P : State → Prop) :
  P o → allocates P (new o).
Proof.
  intros Ho σ x o' Hx. simpl in Hx.
  apply lookup_app_Some in Hx as [Hx|[_ Hx]]; [by left|].
  right. apply list_lookup_singleton_Some in Hx as [_ <-]. done.
Qed.

Lemma allocates_append (x y : addr) (P : State → Prop) :
  allocates P (append x y).
Proof.
  intros σ z o. unfold append.
  destruct (heap σ !! x) as [ox|]; simpl; [|by left].
  rewrite heap_append_next_states. by left.
Qed.

Lemma allocates_ret {A} (a : A) (P : State → Prop) : allocates P (ret a).
Proof. intros σ x o Hx. by left. Qed.

Lemma allocates_bind {A B} (P : State → Prop) (m : M A) (k : A → M B) :
  allocates P m → (∀ a, allocates P (k a)) → allocates P (bind m k).
Proof.
  intros Hm Hk σ x o. specialize (Hm σ). unfold bind.
  destruct (m σ) as [σ1 [a| |]]; simpl in *; [|apply Hm..].
  intros Hx. destruct (Hk a σ1 x o Hx) as [Hx1|?]; [|by right].
  by apply Hm.
Qed.

Lemma allocates_init_next_state (t : char) (tmp : option addr)
    (P : State → Prop) :
  P (token_object t tmp) → allocates P (init_next_state t tmp).
Proof.
  intros HP. destruct (isascii t) eqn:Ht.
  - rewrite init_next_state_ascii by done. by apply allocates_new.
  - intros σ x o. rewrite init_next_state_non_ascii by done. by left.
Qed.

Lemma from_pattern_token (t : char) (regex_expr : str) :
  t ∈ regex_expr → from_pattern regex_expr (token_object t None).
Proof.
  intros Ht. unfold token_object.
  destruct (t =? dot)%N eqn:Hd; [by apply N.eqb_eq in Hd as ->|].
  by destruct (t =? star)%N, (t =? plus)%N.
Qed.

Lemma from_pattern_mono (p q : str) (o : State) :
  (∀ c, c ∈ p → c ∈ q) → from_pattern p o → from_pattern q o.
Proof. intros Hpq. destruct o; simpl; auto. Qed.

Ltac allocates_steps :=
  repeat first
    [ apply allocates_bind; [|intros ?]
    | apply allocates_init_next_state; apply from_pattern_token; by left
    | by apply allocates_new
    | apply allocates_append
    | apply allocates_ret ].

Lemma allocates_build_loop (n : nat) :
  ∀ (rest : str) (current_state : addr),
    length rest ≤ n →
    allocates (from_pattern rest) (build_loop rest current_state).
Proof.
  induction n as [|n IH]; intros rest cur Hlen.
  { destruct rest; [apply allocates_ret | simpl in Hlen; lia]. }
  destruct rest as [|token rest1]; [apply allocates_ret|].
  rewrite build_loop_unfold. simpl in Hlen.
  destruct rest1 as [|next rest2].
  - allocates_steps.
  - destruct (next =? star)%N; [|destruct (next =? plus)%N];
      allocates_steps.
    all: try (eapply allocates_mono; [|apply IH; simpl in *; lia]).
    all: try (intros o; apply from_pattern_mono; intros c Hc).
    all: set_solver.
Qed.

Lemma allocates_RegexFSM_init (regex_expr : str) :
  allocates (from_pattern regex_expr) (RegexFSM_init regex_expr).
Proof.
  unfold RegexFSM_init. allocates_steps.
  by apply (allocates_build_loop (length regex_expr)).
Qed.

Lemma RegexFSM_init_no_consumer (σ : store) (regex_expr : str) (c : char) :
  ¬ consumes σ c → dot ∉ regex_expr → c ∉ regex_expr →
  ¬ consumes (RegexFSM_init regex_expr σ).1 c.
Proof.
  intros Hc Hdot Hin [x [Hx|Hx]];
    destruct (allocates_RegexFSM_init regex_expr σ x _ Hx) as [Hold|Hnew];
    try done; apply Hc; exists x; auto.
Qed.


(** X8: when no object of the module is a [DotState] or an [AsciiState]
    of the character [c], [check_string] accepts no input in which [c]
    occurs, on any automaton: it returns false or raises. *)
Theorem check_string_unconsumed_char (σ : store) (self : RegexFSM)
    (c : char) (text : str) :
  ¬ consumes σ c → c ∈ text →
  (check_string self text σ).2 = Ok false
  ∨ ∃ e, (check_string self text σ).2 = Raise e.
Proof. apply check_string_in_no_consumer. Qed.

Lemma check_string_unconsumed_char_witness :
  ¬ consumes (RegexFSM_init (py "ab") module_init).1 122%N
  ∧ 122%N ∈ py "az"
  ∧ ((check_string (mkRegexFSM 1 1) (py "az")
        (RegexFSM_init (py "ab") module_init).1).2 = Ok false
     ∨ ∃ e, (check_string (mkRegexFSM 1 1) (py "az")
               (RegexFSM_init (py "ab") module_init).1).2 = Raise e).
Proof.
  assert (Hc : ¬ consumes (RegexFSM_init (py "ab") module_init).1 122%N).
  { intros [x Hx]. vm_compute in Hx.
    do 5 (destruct x as [|x]; [by destruct Hx|]). by destruct Hx. }
  assert (Hin : 122%N ∈ py "az").
  { apply list_elem_of_further, list_elem_of_here. }
  split; [exact Hc|]. split; [exact Hin|].
  exact (check_string_unconsumed_char _ (mkRegexFSM 1 1) 122%N (py "az")
           Hc Hin).
Defined.

(** X9: the same through construction: if no object of the module takes
    [c] before the call, and the pattern has neither a dot nor [c] in it,
    then [RegexFSM(regex_expr).check_string(text)] does not return true on
    a [text] in which [c] occurs. *)
Theorem build_and_check_outside_alphabet (σ : store)
    (regex_expr text : str) (c : char) :
  ¬ consumes σ c → dot ∉ regex_expr → c ∉ regex_expr → c ∈ text →
  build_and_check_in σ regex_expr text ≠ Ok true.
Proof.
  intros Hc Hdot Hp Hin. unfold build_and_check_in, bind.
  pose proof (RegexFSM_init_no_consumer σ regex_expr c Hc Hdot Hp) as Hc'.
  destruct (RegexFSM_init regex_expr σ) as [σ' [fsm|e|]]; simpl in *;
    [|done..].
  destruct (check_string_in_no_consumer σ' fsm c text Hc' Hin)
    as [->|[e ->]]; done.
Qed.

Lemma module_init_consumes_nothing (c : char) : ¬ consumes module_init c.
Proof.
  intros [x Hx]. destruct x as [|x]; simpl in Hx; [by destruct Hx|].
  by destruct Hx.
Qed.

Lemma build_and_check_outside_alphabet_witness :
  ¬ consumes module_init 122%N ∧ (dot ∉ py "a*b") ∧ (122%N ∉ py "a*b")
  ∧ 122%N ∈ py "az"
  ∧ build_and_check_in module_init (py "a*b") (py "az") ≠ Ok true.
Proof.
  assert (Hd : dot ∉ py "a*b").
  { intros H. vm_compute in H. by repeat apply elem_of_cons in H as [?|H];
      try by apply elem_of_nil in H. }
  assert (Hz : 122%N ∉ py "a*b").
  { intros H. vm_compute in H. by repeat apply elem_of_cons in H as [?|H];
      try by apply elem_of_nil in H. }
  assert (Hin : 122%N ∈ py "az").
  { apply list_elem_of_further, list_elem_of_here. }
  split_and!; [apply module_init_consumes_nothing | done | done | done |].
  exact (build_and_check_outside_alphabet module_init (py "a*b") (py "az")
           122%N (module_init_consumes_nothing _) Hd Hz Hin).
Defined.


(** ** Quantifier states without a [checking_state] *)

Lemma for_each_raises {A B} (body : B → A → outcome B) (l : list A) (x : A) :
  x ∈ l →
  (∀ acc, ∃ e, body acc x = Raise e) →
  (∀ acc a, body acc a ≠ Diverge) →
  ∀ acc, ∃ e, for_each body acc l = Raise e.
Proof.
  intros Hx Hraise Hbody. induction l as [|a l IH]; intros acc.
  { by apply elem_of_nil in Hx. }
  cbn [for_each]. apply elem_of_cons in Hx as [<-|Hx].
  - destruct (Hraise acc) as [e ->]. by exists e.
  - specialize (Hbody acc a).
    destruct (body acc a) as [acc'|e|]; cbn [obind];
      [by apply IH | by exists e | done].
Qed.

Lemma step_state_not_diverge (σ : store) (c : char) (acc : gset addr)
    (a : addr) :
  step_state σ c acc a ≠ Diverge.
Proof.
  pose proof (step_state_surfaced σ c acc a) as H.
  by destruct (step_state σ c acc a).
Qed.

(** X10: when a [StarState] or [PlusState] whose [checking_state] is
    [None] can be reached from the start node of an automaton,
    [check_string] raises on every non-empty input. *)
Theorem check_string_unchecked_quantifier (σ : store) (self : RegexFSM)
    (x : addr) (c : char) (text : str) :
  reachable σ {[curr_state self]} x → unchecked σ x →
  ∃ e, (check_string self (c :: text) σ).2 = Raise e.
Proof.
  intros Hreach Hx.
  change (∃ e, check_string_in σ self (c :: text) = Raise e).
  unfold check_string_in.
  destruct (get_closure_spec σ {[curr_state self]}) as (C & HC & _).
  rewrite HC. cbn [obind run].
  apply (get_closure_reachable_iff σ _ _ HC) in Hreach.
  destruct (for_each_raises (step_state σ c) (elements C) x)
    with (acc := ∅ : gset addr) as [e He].
  - by apply elem_of_elements.
  - intros acc. exists AttributeError. unfold step_state.
    by destruct Hx as [-> | ->].
  - intros acc a. apply step_state_not_diverge.
  - rewrite He. by exists e.
Qed.

Lemma check_string_unchecked_quantifier_witness :
  reachable (RegexFSM_init (py "*") module_init).1 {[1]} 2
  ∧ unchecked (RegexFSM_init (py "*") module_init).1 2
  ∧ ∃ e, (check_string (mkRegexFSM 1 1) (py "xy")
            (RegexFSM_init (py "*") module_init).1).2 = Raise e.
Proof.
  assert (Hr : reachable (RegexFSM_init (py "*") module_init).1 {[1]} 2).
  { apply (reachable_step _ _ 1); [by apply reachable_seed, elem_of_singleton|].
    vm_compute. apply list_elem_of_here. }
  assert (Hu : unchecked (RegexFSM_init (py "*") module_init).1 2).
  { left. reflexivity. }
  split; [exact Hr|]. split; [exact Hu|].
  exact (check_string_unchecked_quantifier _ (mkRegexFSM 1 1) 2 _ _ Hr Hu).
Defined.

(** ** A [StarState] that heads its own edge list *)

(** X11: when the first entry of [StarState.next_states] is itself a
    [StarState], [check_self] on any [StarState] never returns: whatever
    the recursion limit, it ends in [RecursionError]. *)
Theorem check_self_star_recursion (σ : store) (s : addr) (l : list addr)
    (chk : option addr) :
  StarState_next_states σ = s :: l →
  heap σ !! s = Some (StarState chk) →
  ∀ (depth : nat) (x : addr) (chk' : option addr) (c : char),
    heap σ !! x = Some (StarState chk') →
    check_self depth σ x c = Raise RecursionError.
Proof.
  intros Hl Hs. induction depth as [|depth IH]; intros x chk' c Hx; [done|].
  cbn [check_self]. rewrite Hx, Hl. by rewrite (IH s chk c Hs).
Qed.

Lemma check_self_star_recursion_witness :
  StarState_next_states (RegexFSM_init (py "**") module_init).1 = [2; 3; 4]
  ∧ heap (RegexFSM_init (py "**") module_init).1 !! 2
    = Some (StarState None)
  ∧ heap (RegexFSM_init (py "**") module_init).1 !! 3
    = Some (StarState (Some 2))
  ∧ check_self recursion_limit (RegexFSM_init (py "**") module_init).1
      3 120%N = Raise RecursionError.
Proof.
  split; [reflexivity|]. split; [reflexivity|]. split; [reflexivity|].
  exact (check_self_star_recursion
           (RegexFSM_init (py "**") module_init).1 2 [3; 4] None
           eq_refl eq_refl recursion_limit 3 (Some 2) 120%N eq_refl).
Defined.

(** ** The empty input *)

(** X12: on the empty input [check_string] never raises; it returns true
    exactly when a [TerminationState] can be reached from the start node
    along the edges [get_closure] follows. *)
Theorem check_string_empty_input (σ : store) (self : RegexFSM) :
  ∃ b : bool,
    (check_string self [] σ).2 = Ok b
    ∧ (b = true ↔
       ∃ x, reachable σ {[curr_state self]} x
            ∧ heap σ !! x = Some TerminationState).
Proof.
  change (check_string self [] σ).2 with (check_string_in σ self []).
  unfold check_string_in.
  destruct (get_closure_spec σ {[curr_state self]}) as (C & HC & _).
  rewrite HC. cbn [obind run]. eexists. split; [done|].
  rewrite existsb_exists. split.
  - intros (x & Hx%list_elem_of_In%elem_of_elements & Ht).
    exists x. split; [by apply (get_closure_reachable_iff σ _ _ HC)|].
    unfold is_termination in Ht. by apply bool_decide_eq_true in Ht.
  - intros (x & Hx & Ht). exists x. split.
    + apply list_elem_of_In, elem_of_elements.
      by apply (get_closure_reachable_iff σ _ _ HC).
    + unfold is_termination. by apply bool_decide_eq_true.
Qed.


(** ** More first automata: [x*] and one token *)

Lemma step_state_star_literal (σ : store) (c : char) (acc : gset addr)
    (a k : addr) (x : char) :
  heap σ !! a = Some (StarState (Some k)) →
  heap σ !! k = Some (AsciiState x) →
  step_state σ c acc a
  = Ok (if (x =? c)%N then list_to_set (AsciiState_next_states σ) ∪ acc
        else acc).
Proof.
  intros Ha Hk. unfold step_state. rewrite Ha.
  destruct recursion_limit_pos as [depth ->].
  rewrite (check_self_literal _ _ _ x) by done.
  cbn [obind truthy]. rewrite Hk. by destruct (x =? c)%N.
Qed.

Lemma step_state_star_wildcard (σ : store) (c : char) (acc : gset addr)
    (a k : addr) :
  heap σ !! a = Some (StarState (Some k)) →
  heap σ !! k = Some DotState →
  step_state σ c acc a = Ok (list_to_set (DotState_next_states σ) ∪ acc).
Proof.
  intros Ha Hk. unfold step_state. rewrite Ha.
  destruct recursion_limit_pos as [depth ->].
  rewrite check_self_wildcard by done. cbn [obind truthy]. by rewrite Hk.
Qed.

Ltac star_states :=
  cbn [for_each];
  repeat (first
    [ erewrite step_state_start by reflexivity
    | erewrite step_state_termination by reflexivity
    | erewrite step_state_literal by reflexivity
    | erewrite step_state_wildcard by reflexivity
    | erewrite step_state_star_literal by reflexivity
    | erewrite step_state_star_wildcard by reflexivity ];
    cbn [obind for_each]).

Lemma quantifiable_cases (x : char) :
  quantifiable x →
  x = dot
  ∨ ((x =? dot)%N = false ∧ (x =? star)%N = false ∧ (x =? plus)%N = false
     ∧ isascii x = true).
Proof.
  intros [->|(Ha & Hs%N.eqb_neq & Hp%N.eqb_neq)]; [by left|].
  destruct (x =? dot)%N eqn:Hd; [left; by apply N.eqb_eq|by right].
Qed.

Lemma forallb_token_matches_dot (text : str) :
  forallb (token_matches dot) text = true.
Proof. by apply forallb_forall. Qed.

Lemma forallb_token_matches_literal (x : char) (text : str) :
  (x =? dot)%N = false →
  forallb (token_matches x) text = forallb (N.eqb x) text.
Proof.
  intros Hd. induction text as [|c text IH]; [done|].
  cbn [forallb]. unfold token_matches at 1. by rewrite Hd, IH.
Qed.

(** *** [x*] *)

Lemma RegexFSM_init_star_fresh (x : char) :
  quantifiable x →
  RegexFSM_init [x; star] module_init
  = (store_after_star (if (x =? dot)%N then DotState else AsciiState x),
     Ok (mkRegexFSM 1 1)).
Proof.
  intros [->|(Hd & Hs & Hp & Ha)]%quantifiable_cases; [by vm_compute|].
  unfold RegexFSM_init, bind at 1. cbn [new module_init heap].
  rewrite build_loop_unfold.
  change (star =? star)%N with true.
  cbv iota. unfold init_next_state. rewrite Hs, Hp, Ha, Hd. done.
Qed.

Lemma run_star_wildcard (text : str) :
  run (store_after_star DotState) {[3; 4]} text = Ok true.
Proof.
  induction text as [|c text IH]; [by vm_compute|].
  rewrite run_unfold. list_elements. star_states.
  replace (bool_decide (_ = ∅)) with false by by vm_compute.
  replace (get_closure _ _) with (Ok ({[3; 4]} : gset addr))
    by by vm_compute.
  exact IH.
Qed.

Lemma run_star_literal (x : char) (text : str) :
  run (store_after_star (AsciiState x)) {[3; 4]} text
  = Ok (forallb (N.eqb x) text).
Proof.
  induction text as [|c text IH]; [by vm_compute|].
  rewrite run_unfold. list_elements. star_states.
  cbn [forallb]. destruct (x =? c)%N.
  - replace (bool_decide (_ = ∅)) with false by by vm_compute.
    replace (get_closure _ _) with (Ok ({[3; 4]} : gset addr))
      by by vm_compute.
    exact IH.
  - by vm_compute.
Qed.

(** X16: built first after the module is loaded, the automaton of [x*]
    accepts exactly the inputs, the empty one included, whose characters
    all match [x]. *)
Theorem star_pattern_fresh (x : char) (text : str) :
  quantifiable x →
  build_and_check_in module_init [x; star] text
  = Ok (forallb (token_matches x) text).
Proof.
  intros Hx. unfold build_and_check_in, bind.
  rewrite (RegexFSM_init_star_fresh x Hx).
  unfold check_string, reads, check_string_in. cbn [snd curr_state].
  destruct (quantifiable_cases x Hx) as [->|(Hd & _)].
  - change (dot =? dot)%N with true. cbv iota.
    replace (get_closure _ _) with (Ok ({[1; 3; 4]} : gset addr))
      by by vm_compute.
    cbn [obind]. rewrite forallb_token_matches_dot.
    destruct text as [|c text]; [by vm_compute|].
    rewrite run_unfold. list_elements. star_states.
    replace (bool_decide (_ = ∅)) with false by by vm_compute.
    replace (get_closure _ _) with (Ok ({[3; 4]} : gset addr))
      by by vm_compute.
    cbn [obind]. apply run_star_wildcard.
  - rewrite Hd, forallb_token_matches_literal by done.
    replace (get_closure _ _) with (Ok ({[1; 3; 4]} : gset addr))
      by by vm_compute.
    cbn [obind]. destruct text as [|c text]; [by vm_compute|].
    rewrite run_unfold. list_elements. star_states.
    cbn [forallb]. destruct (x =? c)%N; [|by vm_compute].
    replace (bool_decide (_ = ∅)) with false by by vm_compute.
    replace (get_closure _ _) with (Ok ({[3; 4]} : gset addr))
      by by vm_compute.
    cbn [obind andb]. apply run_star_literal.
Qed.

Lemma star_pattern_fresh_witness :
  quantifiable 97%N
  ∧ build_and_check_in module_init [97%N; star] (py "aaa")
    = Ok (forallb (token_matches 97%N) (py "aaa")).
Proof.
  assert (Hq : quantifiable 97%N).
  { right. split; [reflexivity|]. split; discriminate. }
  split; [exact Hq|]. exact (star_pattern_fresh 97%N (py "aaa") Hq).
Defined.

(** *** One token *)

Lemma RegexFSM_init_token_fresh (x : char) :
  quantifiable x →
  RegexFSM_init [x] module_init
  = (store_after_token (if (x =? dot)%N then DotState else AsciiState x),
     Ok (mkRegexFSM 1 1)).
Proof.
  intros [->|(Hd & Hs & Hp & Ha)]%quantifiable_cases; [by vm_compute|].
  unfold RegexFSM_init, bind at 1. cbn [new module_init heap].
  rewrite build_loop_unfold.
  unfold init_next_state. rewrite Hs, Hp, Ha, Hd. done.
Qed.

Lemma run_after_token (x : State) (text : str) :
  run (store_after_token x) {[3]} text = Ok (bool_decide (text = [])).
Proof.
  destruct text as [|c text]; [by destruct x; vm_compute|].
  rewrite run_unfold. list_elements. star_states.
  by destruct x; vm_compute.
Qed.

(** X15: built first after the module is loaded, the automaton of a
    pattern of one token [x] accepts exactly the inputs of one character
    that matches [x]. *)
Theorem token_pattern_fresh (x : char) (text : str) :
  quantifiable x →
  build_and_check_in module_init [x] text
  = Ok (match text with
        | [c] => token_matches x c
        | _ => false
        end).
Proof.
  intros Hx. unfold build_and_check_in, bind.
  rewrite (RegexFSM_init_token_fresh x Hx).
  unfold check_string, reads, check_string_in. cbn [snd curr_state].
  destruct (quantifiable_cases x Hx) as [->|(Hd & _)].
  - change (dot =? dot)%N with true. cbv iota.
    replace (get_closure _ _) with (Ok ({[1; 2]} : gset addr))
      by by vm_compute.
    cbn [obind]. destruct text as [|c text]; [by vm_compute|].
    rewrite run_unfold. list_elements. star_states.
    replace (bool_decide (_ = ∅)) with false by by vm_compute.
    replace (get_closure _ _) with (Ok ({[3]} : gset addr))
      by by vm_compute.
    cbn [obind]. rewrite run_after_token. by destruct text.
  - rewrite Hd.
    replace (get_closure _ _) with (Ok ({[1; 2]} : gset addr))
      by by vm_compute.
    cbn [obind]. destruct text as [|c text]; [by vm_compute|].
    rewrite run_unfold. list_elements. star_states.
    unfold token_matches. rewrite Hd. cbn [orb].
    destruct (x =? c)%N; [|by destruct text; vm_compute].
    replace (bool_decide (_ = ∅)) with false by by vm_compute.
    replace (get_closure _ _) with (Ok ({[3]} : gset addr))
      by by vm_compute.
    cbn [obind]. rewrite run_after_token. by destruct text.
Qed.

Lemma token_pattern_fresh_witness :
  quantifiable 97%N
  ∧ build_and_check_in module_init [97%N] (py "a")
    = Ok (token_matches 97%N 97%N).
Proof.
  assert (Hq : quantifiable 97%N).
  { right. split; [reflexivity|]. split; discriminate. }
  split; [exact Hq|]. exact (token_pattern_fresh 97%N (py "a") Hq).
Defined.


(** ** More objects and edges *)

Section extends.
Context (σ σ' : store) (Hext : extends σ σ').

Lemma extends_lookup (x : addr) (o : State) :
  heap σ !! x = Some o → heap σ' !! x = Some o.
Proof.
  destruct Hext as [Hh _]. intros Hx.
  by apply (prefix_lookup_Some (heap σ)).
Qed.

Lemma extends_next_states (o : State) (y : addr) :
  y ∈ next_states σ o → y ∈ next_states σ' o.
Proof.
  destruct Hext as [_ Hn]. destruct (Hn o) as [k ->].
  intros Hy. by apply elem_of_app; left.
Qed.

Lemma extends_epsilon_targets (x y : addr) :
  y ∈ epsilon_targets σ x → y ∈ epsilon_targets σ' x.
Proof.
  unfold epsilon_targets.
  destruct (heap σ !! x) as [o|] eqn:Hx; [|by intros ?%elem_of_nil].
  rewrite (extends_lookup x o Hx).
  destruct o; try (by intros ?%elem_of_nil);
    rewrite ?list_elem_of_filter;
    try (intros [? Hy]; split; [done|]);
    try intros Hy;
    first [ by apply (extends_next_states StartState)
          | by apply (extends_next_states (StarState _))
          | by apply (extends_next_states (PlusState _)) ].
Qed.

Lemma extends_reachable (S S' : gset addr) (x : addr) :
  S ⊆ S' → reachable σ S x → reachable σ' S' x.
Proof.
  intros HS. induction 1 as [y Hy|y z _ IH Hz].
  - apply reachable_seed. by apply HS.
  - apply (reachable_step _ _ y); [done|]. by apply extends_epsilon_targets.
Qed.

Lemma extends_get_closure (S S' C C' : gset addr) :
  S ⊆ S' → get_closure σ S = Ok C → get_closure σ' S' = Ok C' → C ⊆ C'.
Proof.
  intros HS HC HC' x Hx.
  apply (get_closure_reachable_iff σ' _ _ HC').
  apply (extends_reachable S S'); [done|].
  by apply (get_closure_reachable_iff σ _ _ HC).
Qed.

(** A [check_self] that said yes says yes again, unless it raises. *)
Lemma extends_check_self (c : char) (depth : nat) :
  ∀ (x : addr) (v : pyval),
    check_self depth σ x c = Ok v → truthy v = true →
    ∀ v', check_self depth σ' x c = Ok v' → truthy v' = true.
Proof.
  induction depth as [|depth IH]; intros x v; [done|].
  cbn [check_self].
  destruct (heap σ !! x) as [o|] eqn:Hx; [|done].
  rewrite (extends_lookup x o Hx).
  destruct o as [| | | sym | chk | chk]; try (by intros [= <-]);
    try (by intros [= <-] Ht v' [= <-]).
  destruct Hext as [_ Hn]. destruct (Hn (StarState chk)) as [k Hk].
  simpl in Hk. rewrite Hk. clear Hk.
  induction (StarState_next_states σ) as [|s l IHl]; [by intros [= <-]|].
  cbn [app].
  destruct (check_self depth σ s c) as [v0|e|] eqn:Hv0; cbn [obind];
    [|done..].
  destruct (check_self depth σ' s c) as [v0'|e'|] eqn:Hv0'; cbn [obind];
    [|done..].
  destruct (truthy v0) eqn:Ht0.
  - rewrite (IH s v0 Hv0 Ht0 v0' Hv0'). by intros _ _ v' [= <-].
  - destruct (truthy v0'); [by intros _ _ v' [= <-]|]. apply IHl.
Qed.

Lemma moves_acc (c : char) (acc : gset addr) (a : addr) (s : store) :
  step_state s c acc a = (D <~ moves s c a ;; Ok (D ∪ acc)).
Proof.
  unfold moves, step_state. generalize recursion_limit. intros depth.
  destruct (heap s !! a) as [[| | | sym | [k|] | [k|]]|]; cbn [obind];
    rewrite ?union_empty_l_L; try done;
    (destruct (check_self depth s _ c) as [v|e|]; cbn [obind]; [|done..];
     destruct (truthy v); cbn [obind]; rewrite ?union_empty_l_L; try done;
     try destruct (heap s !! k); cbn [obind];
     by rewrite ?union_empty_r_L).
Qed.

Lemma extends_moves (c : char) (a : addr) (D D' : gset addr) :
  moves σ c a = Ok D → moves σ' c a = Ok D' → D ⊆ D'.
Proof.
  unfold moves, step_state. generalize recursion_limit. intros depth.
  destruct (heap σ !! a) as [o|] eqn:Ha; [|by intros [= <-]; set_solver].
  rewrite (extends_lookup a o Ha).
  destruct o as [| | | sym | [k|] | [k|]]; try (by intros [= <-] [= <-]).
  - destruct (check_self depth σ a c) as [v|e|] eqn:Hv; cbn [obind];
      [|done..].
    destruct (check_self depth σ' a c) as [v'|e'|] eqn:Hv'; cbn [obind];
      [|done..].
    destruct (truthy v) eqn:Ht; [|by intros [= <-]; set_solver].
    rewrite (extends_check_self c depth a v Hv Ht v' Hv').
    intros [= <-] [= <-]. intros y.
    rewrite !elem_of_union, !elem_of_list_to_set.
    intros [Hy|Hy]; [left|by right].
    by apply (extends_next_states DotState).
  - destruct (check_self depth σ a c) as [v|e|] eqn:Hv; cbn [obind];
      [|done..].
    destruct (check_self depth σ' a c) as [v'|e'|] eqn:Hv'; cbn [obind];
      [|done..].
    destruct (truthy v) eqn:Ht; [|by intros [= <-]; set_solver].
    rewrite (extends_check_self c depth a v Hv Ht v' Hv').
    intros [= <-] [= <-]. intros y.
    rewrite !elem_of_union, !elem_of_list_to_set.
    intros [Hy|Hy]; [left|by right].
    by apply (extends_next_states (AsciiState sym)).
  - destruct (check_self depth σ k c) as [v|e|] eqn:Hv; cbn [obind];
      [|done..].
    destruct (check_self depth σ' k c) as [v'|e'|] eqn:Hv'; cbn [obind];
      [|done..].
    destruct (truthy v) eqn:Ht; [|by intros [= <-]; set_solver].
    rewrite (extends_check_self c depth k v Hv Ht v' Hv').
    destruct (heap σ !! k) as [ko|] eqn:Hk; [|done].
    rewrite (extends_lookup k ko Hk).
    intros [= <-] [= <-]. intros y.
    rewrite !elem_of_union, !elem_of_list_to_set.
    intros [Hy|Hy]; [left|by right].
    by apply extends_next_states.
  - destruct (check_self depth σ k c) as [v|e|] eqn:Hv; cbn [obind];
      [|done..].
    destruct (check_self depth σ' k c) as [v'|e'|] eqn:Hv'; cbn [obind];
      [|done..].
    destruct (truthy v) eqn:Ht; [|by intros [= <-]; set_solver].
    rewrite (extends_check_self c depth k v Hv Ht v' Hv').
    destruct (heap σ !! k) as [ko|] eqn:Hk; [|done].
    rewrite (extends_lookup k ko Hk).
    intros [= <-] [= <-]. intros y.
    rewrite !elem_of_union, !elem_of_list_to_set.
    intros [Hy|Hy]; [left|by right].
    by apply extends_next_states.
Qed.
End extends.


(** The next set is the union of what the active states add. *)
Lemma for_each_moves (s : store) (c : char) (l : list addr) :
  ∀ acc R : gset addr,
    for_each (step_state s c) acc l = Ok R →
    acc ⊆ R
    ∧ (∀ a, a ∈ l → ∃ D, moves s c a = Ok D ∧ D ⊆ R)
    ∧ (∀ y, y ∈ R →
            y ∈ acc ∨ ∃ a D, a ∈ l ∧ moves s c a = Ok D ∧ y ∈ D).
Proof.
  induction l as [|a l IH]; intros acc R.
  { intros [= <-]. split_and!; [done | by intros a ?%elem_of_nil | auto]. }
  cbn [for_each]. rewrite moves_acc.
  destruct (moves s c a) as [D|e|] eqn:HD; cbn [obind]; [|done..].
  intros Hrun. destruct (IH _ _ Hrun) as (Hacc & Hall & Hfrom).
  split_and!.
  - set_solver.
  - intros b [->|Hb]%elem_of_cons; [|by apply Hall].
    exists D. split; [done|]. set_solver.
  - intros y Hy. destruct (Hfrom y Hy) as [[HyD|Hya]%elem_of_union|Hex].
    + right. exists a, D. split_and!; [by left | done | done].
    + by left.
    + right. destruct Hex as (b & Db & Hb & HDb & Hyb).
      exists b, Db. split_and!; [by right | done | done].
Qed.

Section extends_run.
Context (σ σ' : store) (Hext : extends σ σ').

Lemma extends_for_each (c : char) (l l' : list addr) (R R' : gset addr) :
  (∀ a, a ∈ l → a ∈ l') →
  for_each (step_state σ c) ∅ l = Ok R →
  for_each (step_state σ' c) ∅ l' = Ok R' →
  R ⊆ R'.
Proof.
  intros Hl HR HR' y Hy.
  destruct (for_each_moves σ c l _ _ HR) as (_ & _ & Hfrom).
  destruct (for_each_moves σ' c l' _ _ HR') as (_ & Hall & _).
  destruct (Hfrom y Hy) as [?%elem_of_empty|(a & D & Ha & HD & HyD)]; [done|].
  destruct (Hall a (Hl a Ha)) as (D' & HD' & Hsub).
  apply Hsub. by apply (extends_moves σ σ' Hext c a D D').
Qed.

(** An input accepted from [active] is accepted from a larger set in the
    larger state, unless the walk raises there. *)
Lemma extends_run (text : str) :
  ∀ active active' : gset addr,
    active ⊆ active' →
    run σ active text = Ok true →
    run σ' active' text = Ok true ∨ ∃ e, run σ' active' text = Raise e.
Proof.
  induction text as [|c text IH]; intros A A' HA.
  - cbn [run]. intros [= Hex]. left. f_equal.
    apply existsb_exists in Hex
      as (x & Hx%list_elem_of_In%elem_of_elements & Ht).
    apply existsb_exists. exists x. split.
    + apply list_elem_of_In, elem_of_elements. by apply HA.
    + unfold is_termination in *. apply bool_decide_eq_true in Ht.
      apply bool_decide_eq_true. by apply (extends_lookup σ σ' Hext).
  - cbn [run].
    destruct (for_each (step_state σ c) ∅ (elements A)) as [R|e|] eqn:HR;
      cbn [obind]; [|done..].
    case_bool_decide as HRe; [done|].
    destruct (get_closure σ R) as [C|e|] eqn:HC; cbn [obind]; [|done..].
    intros Hrun.
    pose proof (for_each_surfaced (step_state σ' c) (elements A')
                  (step_state_surfaced σ' c) ∅) as Hs.
    destruct (for_each (step_state σ' c) ∅ (elements A')) as [R'|e|] eqn:HR';
      cbn [obind]; [|right; by exists e|done].
    assert (HRR : R ⊆ R').
    { apply (extends_for_each c (elements A) (elements A')); [|done..].
      intros a. rewrite !elem_of_elements. apply HA. }
    rewrite bool_decide_eq_false_2 by set_solver.
    destruct (get_closure_spec σ' R') as (C' & HC' & _). rewrite HC'.
    cbn [obind]. apply (IH C C'); [|done].
    by apply (extends_get_closure σ σ' Hext R R').
Qed.

Lemma extends_check_string_in (self : RegexFSM) (text : str) :
  check_string_in σ self text = Ok true →
  check_string_in σ' self text = Ok true
  ∨ ∃ e, check_string_in σ' self text = Raise e.
Proof.
  unfold check_string_in.
  destruct (get_closure σ {[curr_state self]}) as [C|e|] eqn:HC;
    cbn [obind]; [|done..].
  destruct (get_closure_spec σ' {[curr_state self]}) as (C' & HC' & _).
  rewrite HC'. cbn [obind]. apply extends_run.
  by apply (extends_get_closure σ σ' Hext {[curr_state self]}
              {[curr_state self]}).
Qed.
End extends_run.

Lemma extends_build_all (patterns : list str) :
  ∀ σ, extends σ (build_all patterns σ).
Proof.
  induction patterns as [|p patterns IH]; intros σ; [apply extends_refl|].
  cbn [build_all]. eapply extends_trans; [|apply IH].
  assert (Hg : grows (RegexFSM_init p)).
  { unfold RegexFSM_init. grows_steps.
    by apply (grows_build_loop (length p)). }
  apply Hg.
Qed.

(** X13: an input an automaton accepts is never rejected later: after any
    further [RegexFSM(...)] calls, returning or raising, [check_string] on
    the same automaton and input returns true again or raises. *)
Theorem accepted_stays_accepted (σ : store) (self : RegexFSM) (text : str)
    (patterns : list str) :
  (check_string self text σ).2 = Ok true →
  (check_string self text (build_all patterns σ)).2 = Ok true
  ∨ ∃ e, (check_string self text (build_all patterns σ)).2 = Raise e.
Proof. apply extends_check_string_in, extends_build_all. Qed.

Lemma accepted_stays_accepted_witness :
  (check_string (mkRegexFSM 1 1) (py "a")
     (RegexFSM_init (py "a") module_init).1).2 = Ok true
  ∧ ((check_string (mkRegexFSM 1 1) (py "a")
        (build_all [py "b+"; py "*"]
           (RegexFSM_init (py "a") module_init).1)).2 = Ok true
     ∨ ∃ e, (check_string (mkRegexFSM 1 1) (py "a")
               (build_all [py "b+"; py "*"]
                  (RegexFSM_init (py "a") module_init).1)).2 = Raise e).
Proof.
  assert (H : (check_string (mkRegexFSM 1 1) (py "a")
                 (RegexFSM_init (py "a") module_init).1).2 = Ok true)
    by (vm_compute; reflexivity).
  split; [exact H|].
  exact (accepted_stays_accepted _ (mkRegexFSM 1 1) (py "a")
           [py "b+"; py "*"] H).
Defined.

(** ** What [check_string] hands back *)

(** X3: in every state of the module, on every automaton and input,
    [check_string] returns a [bool] or raises [AttributeError] or
    [RecursionError]: the [NotImplementedError] of [check_next] never comes
    out of it, and the closure loops it runs always finish. *)
Theorem check_string_outcomes (σ : store) (self : RegexFSM) (text : str) :
  (∃ b : bool, (check_string self text σ).2 = Ok b)
  ∨ (check_string self text σ).2 = Raise AttributeError
  ∨ (check_string self text σ).2 = Raise RecursionError.
Proof.
  assert (Hs : surfaced (check_string self text σ).2).
  { apply obind_surfaced; [apply get_closure_surfaced|].
    intros active. apply run_surfaced. }
  destruct (check_string self text σ).2 as [b|[]|]; simpl in Hs;
    [by left; exists b | by right; left | done | by right; right | done].
Qed.

(** ** [x+], an instance *)

Lemma plus_pattern_fresh_witness :
  quantifiable 97%N
  ∧ build_and_check_in module_init [97%N; plus] (py "aa")
    = Ok (bool_decide (py "aa" ≠ []) && forallb (token_matches 97%N) (py "aa")).
Proof.
  assert (Hq : quantifiable 97%N).
  { right. split; [reflexivity|]. split; discriminate. }
  split; [exact Hq|]. exact (plus_pattern_fresh 97%N (py "aa") Hq).
Defined.
